(** * Website mapper and command invokers: model and verified properties

    Shallow embedding of the three programs under [src/tools]:

    - [website_mapper.cpp]: fetch one URL with libcurl, scan the body with
      two [std::regex] patterns, print the link targets and button labels;
    - [cli_bridge.cpp]: run a fixed script through [popen], echo its output;
    - [cli_runner.cpp]: run the joined arguments through [std::system].

    The bodies handled by the programs are byte strings ([std::string]), so
    text is a list of [ascii].  [std::regex] is modelled by a backtracking
    matcher for the part of the ECMAScript grammar the two patterns use:
    literal characters, [.], bracket expressions, the quantifiers [*], [+],
    [*?] on a single atom, and capture groups. *)

From Stdlib Require Import List Ascii String Bool Arith ZArith Lia.
From Stdlib Require Import DecimalString.
Import ListNotations.
Open Scope string_scope.
Open Scope list_scope.

Set Implicit Arguments.

(** ** Text *)

Definition text := list ascii.

Definition chars (s : string) : text := list_ascii_of_string s.
Coercion chars : string >-> text.

Definition dquote : ascii := ascii_of_nat 34.
Definition squote : ascii := ascii_of_nat 39.
Definition LF : ascii := ascii_of_nat 10.
Definition CR : ascii := ascii_of_nat 13.
Definition NUL : ascii := ascii_of_nat 0.

(** [std::endl] writes a newline (and flushes, which the model does not see). *)
Definition endl : text := [LF].

(** ** The regular-expression engine *)

Module Regex.

(** [std::tolower] in the C locale: only 'A'..'Z' change. *)
Definition tolower (c : ascii) : ascii :=
  let n := nat_of_ascii c in
  if ((65 <=? n) && (n <=? 90))%nat then ascii_of_nat (n + 32) else c.

(** With [std::regex::icase] both sides of every comparison are folded. *)
Definition translate (icase : bool) (c : ascii) : ascii :=
  if icase then tolower c else c.

Inductive atom : Type :=
| Char (c : ascii)                                (* a pattern character *)
| Any                                             (* .                   *)
| Bracket (negated : bool) (members : list ascii) (* [...] and [^...]    *).

Inductive quantifier : Type :=
| Once        (* no quantifier *)
| Star        (* *  greedy     *)
| Plus        (* +  greedy     *)
| LazyStar    (* *? non-greedy *).

Inductive node : Type :=
| Term (a : atom) (q : quantifier)
| GroupBegin                                      (* ( *)
| GroupEnd                                        (* ) *).

Record basic_regex : Type :=
  { pattern : list node; icase : bool }.

(** A run of pattern characters. *)
Definition lit (s : text) : list node :=
  map (fun c => Term (Char c) Once) s.

Definition atom_matches (ic : bool) (a : atom) (c : ascii) : bool :=
  match a with
  | Char x => Ascii.eqb (translate ic x) (translate ic c)
  | Any =>
      negb (Ascii.eqb (translate ic c) (translate ic LF))
      && negb (Ascii.eqb (translate ic c) (translate ic CR))
  | Bracket negated members =>
      xorb negated
           (existsb (fun m => Ascii.eqb (translate ic m) (translate ic c))
                    members)
  end.

(** An iterator into the subject is the input that remains from it on;
    the end iterator is [[]]. *)
Definition iterator := text.

(** [std::sub_match]: a pair of iterators. *)
Record sub_match : Type :=
  { first : iterator; second : iterator }.

Definition str (m : sub_match) : text :=
  firstn (List.length (first m) - List.length (second m)) (first m).

Definition unmatched : sub_match := {| first := []; second := [] |}.

(** The state of a match attempt: where the open group began and the
    groups closed so far, in order. *)
Record mstate : Type :=
  { opened : iterator; closed : list sub_match }.

Definition outcome := option (list sub_match * iterator).
Definition cont := iterator -> mstate -> outcome.

Definition one (ic : bool) (a : atom) (k : cont) : cont :=
  fun s st =>
    match s with
    | c :: s' => if atom_matches ic a c then k s' st else None
    | [] => None
    end.

(** Greedy repetition: one more iteration is tried before the rest of
    the pattern. *)
Fixpoint greedy (ic : bool) (a : atom) (k : cont) (s : iterator)
         (st : mstate) : outcome :=
  match s with
  | c :: s' =>
      if atom_matches ic a c then
        match greedy ic a k s' st with
        | Some r => Some r
        | None => k s st
        end
      else k s st
  | [] => k s st
  end.

(** Non-greedy repetition: the rest of the pattern is tried first. *)
Fixpoint lazy (ic : bool) (a : atom) (k : cont) (s : iterator)
         (st : mstate) : outcome :=
  match k s st with
  | Some r => Some r
  | None =>
      match s with
      | c :: s' => if atom_matches ic a c then lazy ic a k s' st else None
      | [] => None
      end
  end.

(** One match attempt anchored at the current iterator: the first
    success in the priority order of the backtracking search. *)
Fixpoint exec (ic : bool) (p : list node) : cont :=
  match p with
  | [] => fun s st => Some (closed st, s)
  | Term a Once :: p' => one ic a (exec ic p')
  | Term a Star :: p' => greedy ic a (exec ic p')
  | Term a Plus :: p' => one ic a (greedy ic a (exec ic p'))
  | Term a LazyStar :: p' => lazy ic a (exec ic p')
  | GroupBegin :: p' =>
      fun s st => exec ic p' s {| opened := s; closed := closed st |}
  | GroupEnd :: p' =>
      fun s st =>
        exec ic p' s
             {| opened := opened st;
                closed := closed st
                            ++ [{| first := opened st; second := s |}] |}
  end.

(** Before an attempt no group is open and none is closed. *)
Definition initial : mstate := {| opened := []; closed := [] |}.

(** [std::match_results]: entry 0 is the whole match, entry [i] is
    group [i]. *)
Definition match_results := list sub_match.

Definition at_ (m : match_results) (i : nat) : sub_match :=
  nth i m unmatched.

Definition suffix (m : match_results) : sub_match :=
  {| first := second (at_ m 0); second := [] |}.

(** [std::regex_search(first, last, m, re)] with [last] the end of the
    subject: the leftmost start at which an attempt succeeds. *)
Fixpoint regex_search (re : basic_regex) (from : iterator)
  : option match_results :=
  match exec (icase re) (pattern re) from initial with
  | Some (groups, e) => Some ({| first := from; second := e |} :: groups)
  | None =>
      match from with
      | [] => None
      | _ :: next => regex_search re next
      end
  end.

End Regex.

(** ** website_mapper.cpp *)

Module WebsiteMapper.
Import Regex.

(** libcurl as the program sees it.  [curl_easy_perform] hands the body
    to the write callback in chunks and returns a [CURLcode]. *)
Definition CURLcode := nat.
Definition CURLE_OK : CURLcode := 0.

Record libcurl : Type :=
  { curl_easy_init : bool;     (* false: no handle was returned *)
    curl_easy_perform : text -> list text * CURLcode;
    curl_easy_strerror : CURLcode -> text }.

Definition WriteCallback (contents : text) (size nmemb : nat)
           (buffer : text) : text * nat :=
  let totalSize := size * nmemb in
  (buffer ++ firstn totalSize contents, totalSize).

(** The body received after libcurl delivered every chunk. *)
Definition received (chunks : list text) : text :=
  fold_left
    (fun buffer chunk =>
       fst (WriteCallback chunk 1 (List.length chunk) buffer))
    chunks [].

(** Line 41: the pattern <a[^>]*href=[Q']([^Q']+)[Q'] with the flag
    icase, where Q stands for the double-quote character. *)
Definition linkRegex : basic_regex :=
  {| pattern :=
       lit "<a" ++ [Term (Bracket true [">"%char]) Star] ++ lit "href="
           ++ [Term (Bracket false [dquote; squote]) Once;
               GroupBegin;
               Term (Bracket true [dquote; squote]) Plus;
               GroupEnd;
               Term (Bracket false [dquote; squote]) Once];
     icase := true |}.

(** Line 42: the pattern <button[^>]*>(.*?)</button> with the flag
    icase. *)
Definition buttonRegex : basic_regex :=
  {| pattern :=
       lit "<button" ++ [Term (Bracket true [">"%char]) Star] ++ lit ">"
           ++ [GroupBegin; Term Any LazyStar; GroupEnd]
           ++ lit "</button>";
     icase := true |}.

(** The loop
    [while (regex_search(searchStart, html.cend(), match, re))
       { found.push_back(match[1]); searchStart = match.suffix().first; }].
    The loop has no bound of its own; [None] is the run that has not
    left the loop after [fuel] iterations. *)
Fixpoint scan (fuel : nat) (re : basic_regex) (searchStart : iterator)
         (found : list text) : option (list text) :=
  match fuel with
  | 0 => None
  | S fuel' =>
      match regex_search re searchStart with
      | Some m =>
          scan fuel' re (first (suffix m)) (found ++ [str (at_ m 1)])
      | None => Some found
      end
  end.

(** Every iteration of either loop consumes input, so one more
    iteration than the body has characters is enough. *)
Definition scan_all (re : basic_regex) (html : text) : option (list text) :=
  scan (S (List.length html)) re html [].

Record ExtractionResult : Type :=
  { links : list text; buttons : list text }.

(** Lines 41-58: both scans start from [html.cbegin()]. *)
Definition extract (html : text) : option ExtractionResult :=
  match scan_all linkRegex html with
  | None => None
  | Some ls =>
      match scan_all buttonRegex html with
      | None => None
      | Some bs => Some {| links := ls; buttons := bs |}
      end
  end.

(** What the process did: the two output channels and the URLs handed
    to [curl_easy_perform]. *)
Record process : Type :=
  { cout : text; cerr : text; requests : list text }.

Definition start : process :=
  {| cout := []; cerr := []; requests := [] |}.

Definition to_cout (t : text) (p : process) : process :=
  {| cout := cout p ++ t; cerr := cerr p; requests := requests p |}.

Definition to_cerr (t : text) (p : process) : process :=
  {| cout := cout p; cerr := cerr p ++ t; requests := requests p |}.

Definition request (url : text) (p : process) : process :=
  {| cout := cout p; cerr := cerr p; requests := requests p ++ [url] |}.

(** [for (const auto& x : xs) std::cout << " - " << x << std::endl;] *)
Definition print_items (xs : list text) (p : process) : process :=
  fold_left
    (fun p x => to_cout endl (to_cout x (to_cout " - " p)))
    xs p.

(** Lines 60-68. *)
Definition print_result (r : ExtractionResult) (p : process) : process :=
  let p := to_cout (chars "Links found:" ++ [LF]) p in
  let p := print_items (links r) p in
  let p := to_cout (LF :: chars "Buttons found:" ++ [LF]) p in
  print_items (buttons r) p.

(** [main]: the final process state and the value returned, or [None]
    when a scan loop does not finish. *)
Definition main (curl : libcurl) (argv : list text)
  : option (process * Z) :=
  let argc := List.length argv in
  if (argc <? 2)%nat then
    Some (to_cerr endl
            (to_cerr " <url>"
               (to_cerr (nth 0 argv [])
                  (to_cerr "Usage: " start))), 1%Z)
  else
    let url := nth 1 argv [] in
    if negb (curl_easy_init curl) then
      Some (to_cerr endl (to_cerr "Failed to initialize libcurl" start),
            1%Z)
    else
      let (chunks, res) := curl_easy_perform curl url in
      let p := request url start in
      let html := received chunks in
      if negb (res =? CURLE_OK)%nat then
        Some (to_cerr endl
                (to_cerr (curl_easy_strerror curl res)
                   (to_cerr "curl_easy_perform() failed: " p)),
              1%Z)
      else
        match extract html with
        | None => None
        | Some r => Some (print_result r p, 0%Z)
        end.

(** The output format as the specification words it: a list of lines,
    each ended by a newline. *)
Definition unlines (ls : list text) : text :=
  List.concat (map (fun l => l ++ [LF]) ls).

Definition item_line (x : text) : text := chars " - " ++ x.

Definition rendered_spec (r : ExtractionResult) : text :=
  unlines
    ([chars "Links found:"] ++ map item_line (links r)
       ++ [[]]
       ++ [chars "Buttons found:"] ++ map item_line (buttons r)).

End WebsiteMapper.

(** ** The two command invokers *)

(** What an invoker did: its two output channels and the command lines
    it handed to the shell. *)
Record invoker : Type :=
  { out : text; err : text; commands : list text }.

Definition idle : invoker := {| out := []; err := []; commands := [] |}.

Definition to_out (t : text) (p : invoker) : invoker :=
  {| out := out p ++ t; err := err p; commands := commands p |}.

Definition to_err (t : text) (p : invoker) : invoker :=
  {| out := out p; err := err p ++ t; commands := commands p |}.

Definition run (cmd : text) (p : invoker) : invoker :=
  {| out := out p; err := err p; commands := commands p ++ [cmd] |}.

(** The arguments [argv[1]], ..., [argv[argc-1]] with their indices. *)
Definition indexed_args (argv : list text) : list (nat * text) :=
  combine (seq 1 (List.length argv - 1)) (tl argv).

(** *** cli_bridge.cpp *)

Module CliBridge.

(** A stream opened by [popen(cmd, "r")]: what the child writes to its
    standard output and the status [pclose] would report for it. *)
Record FILE : Type :=
  { stream : text; status : Z }.

(** [popen] returns no stream when the pipe or the shell process cannot
    be created. *)
Definition shell := text -> option FILE.

(** [fgets(buf, n, f)]: at most [n - 1] characters, stopping after a
    newline; the characters read and what remains of the stream. *)
Fixpoint fgets_chars (room : nat) (s : text) : text * text :=
  match room with
  | 0 => ([], s)
  | S room' =>
      match s with
      | [] => ([], [])
      | c :: s' =>
          if Ascii.eqb c LF then ([c], s')
          else let (l, r) := fgets_chars room' s' in (c :: l, r)
      end
  end.

Definition fgets (n : nat) (s : text) : option (text * text) :=
  match s with
  | [] => None                       (* end of file: nullptr *)
  | _ => Some (fgets_chars (n - 1) s)
  end.

(** [buffer.data()] used as a C string ends at the first NUL. *)
Fixpoint c_str (buf : text) : text :=
  match buf with
  | [] => []
  | c :: buf' => if Ascii.eqb c NUL then [] else c :: c_str buf'
  end.

(** Lines 24-26; [None] is the loop that has not ended after [fuel]
    iterations. *)
Fixpoint read_all (fuel : nat) (s : text) (result : text) : option text :=
  match fuel with
  | 0 => None
  | S fuel' =>
      match fgets 256 s with
      | Some (buffer, rest) => read_all fuel' rest (result ++ c_str buffer)
      | None => Some result
      end
  end.

(** Lines 12-16. *)
Definition command (argv : list text) : text :=
  fold_left (fun cmd a => (cmd ++ chars " ") ++ snd a)
            (indexed_args argv)
            (chars "python3 enhanced_based_god_cli.py").

Definition main (popen : shell) (argv : list text) : option (invoker * Z) :=
  let argc := List.length argv in
  if (argc <? 2)%nat then
    Some (to_err (chars "Usage: cli_bridge <args>" ++ [LF]) idle, 1%Z)
  else
    let cmd := command argv in
    match popen cmd with
    | None =>
        Some (to_err (chars "Failed to run command" ++ [LF]) (run cmd idle),
              1%Z)
    | Some pipe =>
        match read_all (S (List.length (stream pipe))) (stream pipe) [] with
        | None => None
        | Some result => Some (to_out result (run cmd idle), 0%Z)
        end
    end.

End CliBridge.

(** *** cli_runner.cpp *)

Module CliRunner.

(** [operator<<] on an [int]. *)
Definition decimal (z : Z) : text :=
  chars (NilZero.string_of_int (Z.to_int z)).

(** Lines 10-14. *)
Definition command (argv : list text) : text :=
  fold_left
    (fun cmd a =>
       (if (1 <? fst a)%nat then cmd ++ chars " " else cmd) ++ snd a)
    (indexed_args argv) [].

(** [system] is the value [std::system] returns for a command line. *)
Definition main (system : text -> Z) (argv : list text) : invoker * Z :=
  let argc := List.length argv in
  if (argc <? 2)%nat then
    (to_err endl (to_err "No command provided" idle), 1%Z)
  else
    let cmd := command argv in
    let result := system cmd in
    let p := run cmd idle in
    let p :=
      if negb (result =? 0)%Z then
        to_err endl
          (to_err (decimal result) (to_err "Command failed with code " p))
      else p in
    (p, result).

End CliRunner.

(** ** Vocabulary of the statements *)

Module Shape.
Import Regex.

(** [p] is a prefix of [s], compared the way the matcher compares. *)
Fixpoint starts_with (ic : bool) (p s : text) : bool :=
  match p, s with
  | [], _ => true
  | _ :: _, [] => false
  | x :: p', c :: s' =>
      Ascii.eqb (translate ic x) (translate ic c) && starts_with ic p' s'
  end.

(** [p] occurs somewhere in [s]. *)
Fixpoint occurs (ic : bool) (p s : text) : bool :=
  starts_with ic p s
  || match s with
     | [] => false
     | _ :: s' => occurs ic p s'
     end.

Definition lacks (c : ascii) (s : text) : bool :=
  forallb (fun x => negb (Ascii.eqb x c)) s.

Definition is_quote (c : ascii) : bool :=
  Ascii.eqb c dquote || Ascii.eqb c squote.

Definition is_line_break (c : ascii) : bool :=
  Ascii.eqb c LF || Ascii.eqb c CR.

Definition is_letter (c : ascii) : bool :=
  let n := nat_of_ascii c in
  (((65 <=? n) && (n <=? 90)) || ((97 <=? n) && (n <=? 122)))%nat.

(** [p] starts at no position of [x], nor right after it, when [x] is
    followed by [s]. *)
Definition no_start (ic : bool) (p x s : text) : Prop :=
  forall t1 t2, x = t1 ++ t2 -> starts_with ic p (t2 ++ s) = false.

(** Where a repetition of [a] must stop: at the end of the input or at a
    character [a] rejects. *)
Definition stops (ic : bool) (a : atom) (s : text) : Prop :=
  match s with
  | [] => True
  | c :: _ => atom_matches ic a c = false
  end.

(** A continuation that never ends before the iterator it starts from. *)
Definition ends_within (k : cont) : Prop :=
  forall s st g e,
    k s st = Some (g, e) -> List.length e <= List.length s.

(** An anchor opening tag with a quoted [href], and the text that follows
    it up to the next anchor. *)
Record anchor : Type :=
  { attrs : text;            (* between the tag name and href *)
    open_quote : ascii;
    target : text;
    close_quote : ascii;
    more_attrs : text;       (* between the closing quote and > *)
    following : text }.

Definition anchor_text (a : anchor) : text :=
  chars "<a" ++ attrs a ++ chars "href=" ++ [open_quote a] ++ target a
        ++ [close_quote a] ++ more_attrs a ++ chars ">" ++ following a.

Definition plain_anchor (a : anchor) : bool :=
  lacks ">" (attrs a)
  && is_quote (open_quote a) && is_quote (close_quote a)
  && negb (Nat.eqb (List.length (target a)) 0)
  && lacks dquote (target a) && lacks squote (target a)
  && negb (occurs true "href=" (target a))
  && lacks ">" (more_attrs a)
  && negb (occurs true "href=" (more_attrs a))
  && negb (occurs true "<a" (more_attrs a))
  && negb (occurs true "<a" (following a)).

Definition document (preamble : text) (anchors : list anchor) : text :=
  preamble ++ List.concat (map anchor_text anchors).



(** A button element: opening tag with attributes, inner text, closing
    tag. *)
Definition button_element (attributes inner : text) : text :=
  chars "<button" ++ attributes ++ chars ">" ++ inner ++ chars "</button>".

(** A button element and the text that follows it up to the next one. *)
Record button : Type :=
  { button_attrs : text; label : text; trailing : text }.

Definition button_text (b : button) : text :=
  button_element (button_attrs b) (label b) ++ trailing b.


Definition button_document (preamble : text) (bs : list button) : text :=
  preamble ++ List.concat (map button_text bs).

(** [ls] are pieces of [s] that do not overlap and lie in [s] in the
    order of the list. *)
Inductive in_order : text -> list text -> Prop :=
| in_order_nil (s : text) : in_order s []
| in_order_cons (a l b : text) (ls : list text) :
    in_order b ls -> in_order (a ++ l ++ b) (l :: ls).

(** A search result lies in the text searched: the group, something
    after it, and then the iterator the next search starts from. *)
Definition cuts_piece (re : basic_regex) : Prop :=
  forall s m,
    regex_search re s = Some m ->
    exists a b, s = a ++ str (at_ m 1) ++ b ++ first (suffix m).

(** The text with every capital letter folded. *)
Definition lower (s : text) : text := map tolower s.

Definition lower_sub (m : sub_match) : sub_match :=
  {| first := lower (first m); second := lower (second m) |}.

Definition lower_state (st : mstate) : mstate :=
  {| opened := lower (opened st); closed := map lower_sub (closed st) |}.

Definition lower_outcome (o : outcome) : outcome :=
  match o with
  | Some (g, e) => Some (map lower_sub g, lower e)
  | None => None
  end.

(** A continuation that does on the folded text what it does on the
    text, with the folded result. *)
Definition folds (k : cont) : Prop :=
  forall s st, k (lower s) (lower_state st) = lower_outcome (k s st).

Definition lower_result (r : WebsiteMapper.ExtractionResult)
  : WebsiteMapper.ExtractionResult :=
  {| WebsiteMapper.links := map lower (WebsiteMapper.links r);
     WebsiteMapper.buttons := map lower (WebsiteMapper.buttons r) |}.

(** The texts of [xs] with [sep] between neighbours. *)
Fixpoint join (sep : text) (xs : list text) : text :=
  match xs with
  | [] => []
  | x :: rest =>
      match rest with
      | [] => x
      | _ :: _ => x ++ sep ++ join sep rest
      end
  end.

End Shape.

(** ** The matcher on a bounded call stack *)

(** The matcher of libstdc++ walks the pattern by recursion
    (regex_executor.tcc, _M_dfs): after a character is matched the rest of
    the attempt runs in a nested call (_M_handle_match), and a repetition
    nests once more for every further iteration (_M_rep_once_more), so the
    call stack grows with the characters an attempt has consumed.  The
    program sets no limit on the body and catches nothing: when the stack
    is exhausted the process is killed.  The definitions below are those
    of [Regex] and [WebsiteMapper] with the number of frames that are
    left as one more argument.  They charge one frame for every character
    consumed; the library also nests for the states of repetitions and
    groups, so it needs no fewer frames than are charged here. *)

Module Stack.
Import Regex WebsiteMapper.

Inductive run (A : Type) : Type :=
| Killed                      (* the call stack was exhausted *)
| Returned (a : A).

Arguments Killed {A}.
Arguments Returned {A} a.

Definition cont_on := nat -> iterator -> mstate -> run outcome.

Definition one_on (ic : bool) (a : atom) (k : cont_on) : cont_on :=
  fun frames s st =>
    match s with
    | c :: s' =>
        if atom_matches ic a c then
          match frames with
          | 0 => Killed
          | S frames' => k frames' s' st
          end
        else Returned None
    | [] => Returned None
    end.

Fixpoint greedy_on (ic : bool) (a : atom) (k : cont_on) (s : iterator)
         (frames : nat) (st : mstate) : run outcome :=
  match s with
  | c :: s' =>
      if atom_matches ic a c then
        match frames with
        | 0 => Killed
        | S frames' =>
            match greedy_on ic a k s' frames' st with
            | Killed => Killed
            | Returned (Some r) => Returned (Some r)
            | Returned None => k frames s st
            end
        end
      else k frames s st
  | [] => k frames s st
  end.

Fixpoint lazy_on (ic : bool) (a : atom) (k : cont_on) (s : iterator)
         (frames : nat) (st : mstate) : run outcome :=
  match k frames s st with
  | Killed => Killed
  | Returned (Some r) => Returned (Some r)
  | Returned None =>
      match s with
      | c :: s' =>
          if atom_matches ic a c then
            match frames with
            | 0 => Killed
            | S frames' => lazy_on ic a k s' frames' st
            end
          else Returned None
      | [] => Returned None
      end
  end.

Fixpoint exec_on (ic : bool) (p : list node) : cont_on :=
  match p with
  | [] => fun frames s st => Returned (Some (closed st, s))
  | Term a Once :: p' => one_on ic a (exec_on ic p')
  | Term a Star :: p' =>
      fun frames s st => greedy_on ic a (exec_on ic p') s frames st
  | Term a Plus :: p' =>
      one_on ic a
             (fun frames s st => greedy_on ic a (exec_on ic p') s frames st)
  | Term a LazyStar :: p' =>
      fun frames s st => lazy_on ic a (exec_on ic p') s frames st
  | GroupBegin :: p' =>
      fun frames s st =>
        exec_on ic p' frames s {| opened := s; closed := closed st |}
  | GroupEnd :: p' =>
      fun frames s st =>
        exec_on ic p' frames s
                {| opened := opened st;
                   closed := closed st
                               ++ [{| first := opened st; second := s |}] |}
  end.

(** Every attempt starts on the stack as [main] left it: [frames] are
    free. *)
Fixpoint regex_search_on (frames : nat) (re : basic_regex) (from : iterator)
  : run (option match_results) :=
  match exec_on (icase re) (pattern re) frames from initial with
  | Killed => Killed
  | Returned (Some (groups, e)) =>
      Returned (Some ({| first := from; second := e |} :: groups))
  | Returned None =>
      match from with
      | [] => Returned None
      | _ :: next => regex_search_on frames re next
      end
  end.

Fixpoint scan_on (fuel frames : nat) (re : basic_regex)
         (searchStart : iterator) (found : list text)
  : option (run (list text)) :=
  match fuel with
  | 0 => None
  | S fuel' =>
      match regex_search_on frames re searchStart with
      | Killed => Some Killed
      | Returned (Some m) =>
          scan_on fuel' frames re (first (suffix m))
                  (found ++ [str (at_ m 1)])
      | Returned None => Some (Returned found)
      end
  end.

Definition scan_all_on (frames : nat) (re : basic_regex) (html : text)
  : option (run (list text)) :=
  scan_on (S (List.length html)) frames re html [].

Definition extract_on (frames : nat) (html : text)
  : option (run ExtractionResult) :=
  match scan_all_on frames linkRegex html with
  | None => None
  | Some Killed => Some Killed
  | Some (Returned ls) =>
      match scan_all_on frames buttonRegex html with
      | None => None
      | Some Killed => Some Killed
      | Some (Returned bs) => Some (Returned {| links := ls; buttons := bs |})
      end
  end.

(** [main] with [frames] free frames when the scans begin. *)
Definition main_on (frames : nat) (curl : libcurl) (argv : list text)
  : option (run (process * Z)) :=
  let argc := List.length argv in
  if (argc <? 2)%nat then
    Some (Returned
            (to_cerr endl
               (to_cerr " <url>"
                  (to_cerr (nth 0 argv [])
                     (to_cerr "Usage: " start))), 1%Z))
  else
    let url := nth 1 argv [] in
    if negb (curl_easy_init curl) then
      Some (Returned
              (to_cerr endl (to_cerr "Failed to initialize libcurl" start),
               1%Z))
    else
      let (chunks, res) := curl_easy_perform curl url in
      let p := request url start in
      let html := received chunks in
      if negb (res =? CURLE_OK)%nat then
        Some (Returned
                (to_cerr endl
                   (to_cerr (curl_easy_strerror curl res)
                      (to_cerr "curl_easy_perform() failed: " p)),
                 1%Z))
      else
        match extract_on frames html with
        | None => None
        | Some Killed => Some Killed
        | Some (Returned r) => Some (Returned (print_result r p, 0%Z))
        end.

(** A bounded continuation that, when it returns, returns what the
    unbounded one returns. *)
Definition agrees (k' : cont_on) (k : cont) : Prop :=
  forall frames s st o, k' frames s st = Returned o -> k s st = o.

End Stack.

(** * Properties *)

Import Regex WebsiteMapper Shape.

(** ** Characters *)

Lemma tolower_cases (c : ascii) :
  tolower c = c \/ (is_letter (tolower c) = true /\ is_letter c = true).
Proof.
  destruct c as [[] [] [] [] [] [] [] []];
    first [left; reflexivity | right; split; reflexivity].
Qed.

Lemma tolower_other (x : ascii) : is_letter x = false -> tolower x = x.
Proof.
  intros Hx. destruct (tolower_cases x) as [E | [_ E]]; [exact E | congruence].
Qed.

(** Folding case never confuses a character that is not a letter. *)
Lemma eqb_fold_other (x c : ascii) :
  is_letter x = false ->
  Ascii.eqb (translate true x) (translate true c) = Ascii.eqb x c.
Proof.
  intros Hx. simpl. rewrite (tolower_other x Hx).
  destruct (tolower_cases c) as [E | [E1 E2]].
  - now rewrite E.
  - destruct (Ascii.eqb_spec x (tolower c)) as [-> | _]; [congruence |].
    destruct (Ascii.eqb_spec x c) as [-> | _]; [congruence | reflexivity].
Qed.

(** ** Prefixes and occurrences *)

Section Occurrences.
Variable ic : bool.

Lemma starts_with_cut (p t : text) (c : ascii) (s : text) :
  (forall x, In x p -> Ascii.eqb (translate ic x) (translate ic c) = false) ->
  starts_with ic p (t ++ c :: s) = true -> starts_with ic p t = true.
Proof.
  revert t. induction p as [|x p IH]; intros t Hp H; [reflexivity|].
  destruct t as [|d t]; simpl in *.
  - rewrite (Hp x (or_introl eq_refl)) in H. discriminate.
  - apply andb_true_iff in H as [H1 H2]. rewrite H1. simpl.
    apply IH; auto.
Qed.

Lemma occurs_tail (p t1 t2 : text) :
  occurs ic p (t1 ++ t2) = false -> occurs ic p t2 = false.
Proof.
  induction t1 as [|d t1 IH]; simpl; [auto|].
  intros H. apply orb_false_iff in H as [_ H]. auto.
Qed.

Lemma occurs_head (p s : text) :
  occurs ic p s = false -> starts_with ic p s = false.
Proof.
  destruct s; simpl; intros H; apply orb_false_iff in H; tauto.
Qed.

Lemma no_start_nil (p s : text) :
  starts_with ic p s = false -> no_start ic p [] s.
Proof.
  intros H t1 t2 E. symmetry in E. apply app_eq_nil in E as [_ ->]. exact H.
Qed.

Lemma no_start_cons (p : text) (c : ascii) (x s : text) :
  starts_with ic p (c :: x ++ s) = false ->
  no_start ic p x s -> no_start ic p (c :: x) s.
Proof.
  intros H Hx t1 t2 E. destruct t1 as [|d t1]; simpl in E.
  - subst t2. exact H.
  - injection E as _ E. eapply Hx; eauto.
Qed.

Lemma no_start_app (p x y s : text) :
  no_start ic p x (y ++ s) -> no_start ic p y s ->
  no_start ic p (x ++ y) s.
Proof.
  revert y s. induction x as [|c x IH]; intros y s Hx Hy; simpl; [exact Hy|].
  apply no_start_cons.
  - rewrite <- app_assoc. exact (Hx [] (c :: x) eq_refl).
  - apply IH; auto. intros t1 t2 E. apply (Hx (c :: t1) t2). now rewrite E.
Qed.

(** A text in which [p] does not occur, followed by a character that is
    not in [p], has no position where [p] starts. *)
Lemma no_start_occurs (p x : text) (c : ascii) (s : text) :
  (forall y, In y p -> Ascii.eqb (translate ic y) (translate ic c) = false) ->
  occurs ic p x = false -> no_start ic p x (c :: s).
Proof.
  intros Hp Hx t1 t2 ->.
  apply occurs_tail, occurs_head in Hx.
  destruct (starts_with ic p (t2 ++ c :: s)) eqn:E; [|reflexivity].
  apply starts_with_cut in E; [congruence | exact Hp].
Qed.

End Occurrences.

(** ** The matcher *)

Section Matcher.
Variable ic : bool.

(** A run of pattern characters matches exactly a prefix. *)
Lemma exec_lit (p : text) (rest : list node) (s : iterator) (st : mstate) :
  exec ic (lit p ++ rest) s st =
  if starts_with ic p s then exec ic rest (skipn (List.length p) s) st
  else None.
Proof.
  revert s. induction p as [|x p IH]; intros s; [reflexivity|].
  destruct s as [|c s]; [reflexivity|].
  simpl. destruct (Ascii.eqb (translate ic x) (translate ic c)); simpl;
    [apply IH | reflexivity].
Qed.

Lemma exec_lit_none (p : text) (rest : list node) (s : iterator) (st : mstate) :
  starts_with ic p s = false -> exec ic (lit p ++ rest) s st = None.
Proof. intros H. now rewrite exec_lit, H. Qed.

Lemma greedy_stop (a : atom) (k : cont) (s : iterator) (st : mstate) :
  stops ic a s -> greedy ic a k s st = k s st.
Proof.
  destruct s as [|c s]; simpl; [reflexivity|]. now intros ->.
Qed.

(** Characters the atom accepts in front of a successful repetition leave
    it successful, with the same result: longer repetitions come first. *)
Lemma greedy_through (a : atom) (k : cont) (x s : iterator) (st : mstate) r :
  forallb (atom_matches ic a) x = true ->
  greedy ic a k s st = Some r -> greedy ic a k (x ++ s) st = Some r.
Proof.
  induction x as [|c x IH]; simpl; intros Hx H; [exact H|].
  apply andb_true_iff in Hx as [-> Hx]. now rewrite (IH Hx H).
Qed.

(** The repetition fails when the rest of the pattern fails wherever the
    repetition can stop. *)
Lemma greedy_none (a : atom) (k : cont) (x s : iterator) (st : mstate) :
  (forall t1 t2, x = t1 ++ t2 -> k (t2 ++ s) st = None) ->
  stops ic a s -> greedy ic a k (x ++ s) st = None.
Proof.
  induction x as [|c x IH]; intros Hk Hs.
  - simpl. rewrite greedy_stop by exact Hs. exact (Hk [] [] eq_refl).
  - simpl. rewrite IH; [| intros t1 t2 E; apply (Hk (c :: t1) t2); now rewrite E
                         | exact Hs].
    pose proof (Hk [] (c :: x) eq_refl) as H0. simpl in H0. rewrite H0.
    now destruct (atom_matches ic a c).
Qed.

Lemma lazy_none (a : atom) (k : cont) (x : iterator) (c : ascii)
      (s : iterator) (st : mstate) :
  (forall t1 t2, x = t1 ++ t2 -> k (t2 ++ c :: s) st = None) ->
  atom_matches ic a c = false -> lazy ic a k (x ++ c :: s) st = None.
Proof.
  induction x as [|d x IH]; intros Hk Hc.
  - pose proof (Hk [] [] eq_refl) as H0. simpl in H0.
    simpl. rewrite H0, Hc. reflexivity.
  - pose proof (Hk [] (d :: x) eq_refl) as H0. simpl in H0.
    simpl. rewrite H0. rewrite IH; [now destruct (atom_matches ic a d) | | exact Hc].
    intros t1 t2 E. apply (Hk (d :: t1) t2). now rewrite E.
Qed.

End Matcher.

(** ** Every attempt ends inside the input *)

Section Progress.
Variable ic : bool.

Lemma one_consumes (a : atom) (k : cont) :
  ends_within k ->
  forall s st g e,
    one ic a k s st = Some (g, e) -> List.length e < List.length s.
Proof.
  intros Hk [|c s] st g e; simpl; [discriminate|].
  destruct (atom_matches ic a c); [|discriminate].
  intros H. apply Hk in H. lia.
Qed.

Lemma greedy_within (a : atom) (k : cont) :
  ends_within k -> ends_within (greedy ic a k).
Proof.
  intros Hk s. induction s as [|c s IH]; intros st g e; simpl.
  - apply Hk.
  - destruct (atom_matches ic a c).
    + destruct (greedy ic a k s st) as [[g' e']|] eqn:E.
      * intros H. injection H as -> ->. apply IH in E. lia.
      * intros H. apply Hk in H. exact H.
    + intros H. apply Hk in H. exact H.
Qed.

Lemma lazy_within (a : atom) (k : cont) :
  ends_within k -> ends_within (lazy ic a k).
Proof.
  intros Hk s. induction s as [|c s IH]; intros st g e; simpl.
  - destruct (k [] st) as [r|] eqn:E; [|discriminate].
    intros H. injection H as ->. now apply Hk in E.
  - destruct (k (c :: s) st) as [r|] eqn:E.
    + intros H. injection H as ->. now apply Hk in E.
    + destruct (atom_matches ic a c); [|discriminate].
      intros H. apply IH in H. simpl. lia.
Qed.

Lemma exec_within (p : list node) : ends_within (exec ic p).
Proof.
  induction p as [|n p IH].
  - intros s st g e H. simpl in H. injection H as _ ->. lia.
  - destruct n as [a [] | |]; simpl.
    + intros s st g e H. apply one_consumes in H; [lia | exact IH].
    + now apply greedy_within.
    + intros s st g e H.
      apply one_consumes in H; [lia | now apply greedy_within].
    + now apply lazy_within.
    + intros s st g e H. now apply IH in H.
    + intros s st g e H. now apply IH in H.
Qed.

(** A pattern that begins with a single character never matches the
    empty text. *)
Lemma exec_consumes (a : atom) (p : list node) (s : iterator) (st : mstate)
      g e :
  exec ic (Term a Once :: p) s st = Some (g, e) ->
  List.length e < List.length s.
Proof. simpl. apply one_consumes, exec_within. Qed.

End Progress.

(** ** Searching *)

Lemma regex_search_here (re : basic_regex) (s : iterator) g e :
  exec (icase re) (pattern re) s initial = Some (g, e) ->
  regex_search re s = Some ({| first := s; second := e |} :: g).
Proof. intros H. destruct s; simpl; now rewrite H. Qed.

Lemma regex_search_next (re : basic_regex) (c : ascii) (s : iterator) :
  exec (icase re) (pattern re) (c :: s) initial = None ->
  regex_search re (c :: s) = regex_search re s.
Proof. intros H. simpl. now rewrite H. Qed.

Lemma regex_search_skip (re : basic_regex) (x s : iterator) :
  (forall t1 c t2, x = t1 ++ c :: t2 ->
                   exec (icase re) (pattern re) (c :: t2 ++ s) initial = None) ->
  regex_search re (x ++ s) = regex_search re s.
Proof.
  induction x as [|c x IH]; intros H; [reflexivity|].
  change ((c :: x) ++ s) with (c :: x ++ s).
  rewrite regex_search_next by exact (H [] c x eq_refl).
  apply IH. intros t1 d t2 E. apply (H (c :: t1) d t2). now rewrite E.
Qed.

(** A search that succeeds leaves less input than it was given, for a
    pattern that begins with a single character. *)
Lemma regex_search_progress (re : basic_regex) (a : atom) (p : list node) :
  pattern re = Term a Once :: p ->
  forall s m, regex_search re s = Some m ->
              List.length (first (suffix m)) < List.length s.
Proof.
  intros Hp s. induction s as [|c s IH]; intros m; simpl.
  - destruct (exec (icase re) (pattern re) [] initial) as [[g e]|] eqn:E;
      [|discriminate].
    rewrite Hp in E. apply exec_consumes in E. simpl in E. lia.
  - destruct (exec (icase re) (pattern re) (c :: s) initial) as [[g e]|] eqn:E.
    + intros H. injection H as <-. simpl.
      rewrite Hp in E. now apply exec_consumes in E.
    + intros H. apply IH in H. simpl in *. lia.
Qed.

(** ** The scan loop *)

Lemma scan_more (fuel : nat) (re : basic_regex) (s : iterator)
      (found : list text) (m : match_results) :
  regex_search re s = Some m ->
  scan (S fuel) re s found
  = scan fuel re (first (suffix m)) (found ++ [str (at_ m 1)]).
Proof. intros H. simpl. now rewrite H. Qed.

Lemma scan_done (fuel : nat) (re : basic_regex) (s : iterator)
      (found : list text) :
  regex_search re s = None -> scan (S fuel) re s found = Some found.
Proof. intros H. simpl. now rewrite H. Qed.

Lemma scan_same_search (fuel : nat) (re : basic_regex) (s s' : iterator)
      (found : list text) :
  regex_search re s = regex_search re s' ->
  scan fuel re s found = scan fuel re s' found.
Proof. intros H. destruct fuel; simpl; [reflexivity | now rewrite H]. Qed.

Lemma scan_fuel_mono (re : basic_regex) (n m : nat) (s : iterator)
      (found r : list text) :
  n <= m -> scan n re s found = Some r -> scan m re s found = Some r.
Proof.
  revert m s found. induction n as [|n IH]; intros m s found Hle;
    [discriminate|].
  destruct m as [|m]; [lia|]. simpl.
  destruct (regex_search re s); [apply IH; lia | auto].
Qed.

(** The loop ends for a pattern that begins with a single character:
    more fuel than characters is always enough. *)
Lemma scan_total (re : basic_regex) (a : atom) (p : list node) :
  pattern re = Term a Once :: p ->
  forall fuel s found,
    List.length s < fuel -> exists r, scan fuel re s found = Some r.
Proof.
  intros Hp fuel. induction fuel as [|fuel IH]; intros s found Hlt; [lia|].
  destruct (regex_search re s) as [m|] eqn:E.
  - erewrite scan_more by exact E. apply IH.
    apply (regex_search_progress re Hp) in E. lia.
  - rewrite scan_done by exact E. now exists found.
Qed.

Lemma scan_all_total (re : basic_regex) (a : atom) (p : list node) :
  pattern re = Term a Once :: p ->
  forall html, exists r, scan_all re html = Some r.
Proof. intros Hp html. apply (scan_total re Hp). lia. Qed.

Lemma linkRegex_head :
  exists p, pattern linkRegex = Term (Char "<") Once :: p.
Proof. eexists. reflexivity. Qed.

Lemma buttonRegex_head :
  exists p, pattern buttonRegex = Term (Char "<") Once :: p.
Proof. eexists. reflexivity. Qed.

Lemma extract_total (html : text) : exists r, extract html = Some r.
Proof.
  destruct linkRegex_head as [p Hp]. destruct buttonRegex_head as [p' Hp'].
  destruct (scan_all_total linkRegex Hp html) as [ls Hl].
  destruct (scan_all_total buttonRegex Hp' html) as [bs Hb].
  unfold extract. rewrite Hl, Hb. eauto.
Qed.

(** ** The link pattern on an anchor tag *)

Lemma exec_lit_app (ic : bool) (p : text) (rest : list node) (x : iterator)
      (st : mstate) :
  exec ic (lit p ++ rest) (p ++ x) st = exec ic rest x st.
Proof.
  induction p as [|c p IH]; [reflexivity|].
  simpl. now rewrite Ascii.eqb_refl.
Qed.

Lemma greedy_first (ic : bool) (a : atom) (k : cont) (c : ascii)
      (x : iterator) (st : mstate) r :
  atom_matches ic a c = true ->
  greedy ic a k x st = None ->
  k (c :: x) st = Some r ->
  greedy ic a k (c :: x) st = Some r.
Proof. intros Ha Hg Hk. simpl. now rewrite Ha, Hg. Qed.

Lemma is_quote_cases (c : ascii) :
  is_quote c = true -> c = dquote \/ c = squote.
Proof.
  unfold is_quote. intros H. apply orb_true_iff in H as [H | H];
    apply Ascii.eqb_eq in H; auto.
Qed.

Lemma bracket_gt (c : ascii) :
  atom_matches true (Bracket true [">"%char]) c = negb (Ascii.eqb c ">").
Proof.
  unfold atom_matches, existsb.
  rewrite eqb_fold_other by reflexivity.
  rewrite orb_false_r, Ascii.eqb_sym. reflexivity.
Qed.

Lemma bracket_quote (negated : bool) (c : ascii) :
  atom_matches true (Bracket negated [dquote; squote]) c
  = xorb negated (is_quote c).
Proof.
  unfold atom_matches, existsb, is_quote.
  rewrite !eqb_fold_other by reflexivity.
  rewrite orb_false_r, (Ascii.eqb_sym dquote), (Ascii.eqb_sym squote).
  reflexivity.
Qed.

Lemma lacks_gt (x : text) :
  lacks ">" x = true ->
  forallb (atom_matches true (Bracket true [">"%char])) x = true.
Proof.
  unfold lacks. intros H. apply forallb_forall. intros c Hc.
  rewrite forallb_forall in H. rewrite bracket_gt. exact (H c Hc).
Qed.

Lemma lacks_quotes (x : text) :
  lacks dquote x = true -> lacks squote x = true ->
  forallb (atom_matches true (Bracket true [dquote; squote])) x = true.
Proof.
  unfold lacks. intros H1 H2. apply forallb_forall. intros c Hc.
  rewrite forallb_forall in H1, H2.
  specialize (H1 c Hc). specialize (H2 c Hc).
  rewrite bracket_quote. unfold is_quote.
  apply negb_true_iff in H1, H2. now rewrite H1, H2.
Qed.

(** The quoted value: the group takes everything up to the closing
    quote. *)
Lemma link_value (q1 : ascii) (v : text) (q2 : ascii) (z : iterator)
      (st : mstate) :
  is_quote q1 = true -> is_quote q2 = true ->
  v <> [] -> lacks dquote v = true -> lacks squote v = true ->
  exec true
       [Term (Bracket false [dquote; squote]) Once;
        GroupBegin;
        Term (Bracket true [dquote; squote]) Plus;
        GroupEnd;
        Term (Bracket false [dquote; squote]) Once]
       (q1 :: v ++ q2 :: z) st
  = Some (closed st ++ [{| first := v ++ q2 :: z; second := q2 :: z |}], z).
Proof.
  intros Hq1 Hq2 Hv Hd Hs.
  cbn [exec]. unfold one at 1. rewrite bracket_quote, Hq1. cbn [xorb].
  destruct v as [|c v]; [congruence|].
  pose proof (lacks_quotes _ Hd Hs) as Hall.
  cbn [forallb] in Hall. apply andb_true_iff in Hall as [Hc Hall].
  cbn [app]. unfold one at 1. rewrite Hc.
  apply greedy_through; [exact Hall|].
  rewrite greedy_stop
    by (cbn [stops]; rewrite bracket_quote, Hq2; reflexivity).
  unfold one. rewrite bracket_quote, Hq2. reflexivity.
Qed.

Lemma href_not_at_quote (q : ascii) (s : text) :
  is_quote q = true -> starts_with true "href=" (q :: s) = false.
Proof. intros H. destruct (is_quote_cases _ H) as [-> | ->]; reflexivity. Qed.

Lemma quote_not_in_href (q : ascii) :
  is_quote q = true ->
  forall y, In y (chars "href=") ->
            Ascii.eqb (translate true y) (translate true q) = false.
Proof.
  intros H y Hy. destruct (is_quote_cases _ H) as [-> | ->];
    simpl in Hy; intuition (subst; reflexivity).
Qed.

Lemma gt_not_in_href :
  forall y, In y (chars "href=") ->
            Ascii.eqb (translate true y) (translate true ">") = false.
Proof. intros y Hy. simpl in Hy. intuition (subst; reflexivity). Qed.

(** After the real [href=] there is no place, up to the end of the tag,
    where [href=] starts again. *)
Lemma no_later_href (q1 : ascii) (v : text) (q2 : ascii) (more rest : text) :
  is_quote q1 = true -> is_quote q2 = true ->
  occurs true "href=" v = false -> occurs true "href=" more = false ->
  no_start true "href=" (chars "ref=" ++ q1 :: v ++ q2 :: more)
           (">"%char :: rest).
Proof.
  intros Hq1 Hq2 Hv Hm.
  assert (Htail : no_start true "href=" (v ++ q2 :: more) (">"%char :: rest)).
  { apply no_start_app.
    - apply no_start_occurs; [now apply quote_not_in_href | exact Hv].
    - apply no_start_cons; [now apply href_not_at_quote|].
      apply no_start_occurs; [exact gt_not_in_href | exact Hm]. }
  cbn [chars list_ascii_of_string app].
  repeat (apply no_start_cons; [reflexivity|]).
  apply no_start_cons; [now apply href_not_at_quote | exact Htail].
Qed.

Lemma plain_anchor_inv (a : anchor) :
  plain_anchor a = true ->
  lacks ">" (attrs a) = true
  /\ is_quote (open_quote a) = true /\ is_quote (close_quote a) = true
  /\ target a <> []
  /\ lacks dquote (target a) = true /\ lacks squote (target a) = true
  /\ occurs true "href=" (target a) = false
  /\ lacks ">" (more_attrs a) = true
  /\ occurs true "href=" (more_attrs a) = false
  /\ occurs true "<a" (more_attrs a) = false
  /\ occurs true "<a" (following a) = false.
Proof.
  unfold plain_anchor. rewrite !andb_true_iff, !negb_true_iff.
  intros H. decompose [and] H. repeat split; auto.
  intros E. rewrite E in *. discriminate.
Qed.

Lemma anchor_text_app (a : anchor) (d : text) :
  anchor_text a ++ d
  = chars "<a" ++ attrs a ++ chars "href="
          ++ open_quote a :: target a
          ++ close_quote a :: more_attrs a ++ ">"%char :: following a ++ d.
Proof.
  unfold anchor_text. repeat rewrite <- app_assoc. reflexivity.
Qed.

(** One attempt at the start of a plain anchor tag succeeds: the group is
    the quoted value and the match ends right after the closing quote. *)
Lemma link_tag (a : anchor) (d : text) :
  plain_anchor a = true ->
  let z := more_attrs a ++ ">"%char :: following a ++ d in
  exec true (pattern linkRegex) (anchor_text a ++ d) initial
  = Some ([{| first := target a ++ close_quote a :: z;
              second := close_quote a :: z |}], z).
Proof.
  intros Ha z. apply plain_anchor_inv in Ha.
  destruct Ha as (Hattrs & Hq1 & Hq2 & Hne & Hd & Hs & Hv & Hgt & Hm & _ & _).
  rewrite anchor_text_app. fold z.
  change (pattern linkRegex)
    with (lit "<a"
              ++ Term (Bracket true [">"%char]) Star
              :: lit "href="
              ++ [Term (Bracket false [dquote; squote]) Once;
                  GroupBegin;
                  Term (Bracket true [dquote; squote]) Plus;
                  GroupEnd;
                  Term (Bracket false [dquote; squote]) Once]).
  rewrite exec_lit_app. cbn [exec].
  apply greedy_through; [now apply lacks_gt|].
  change (chars "href=" ++ open_quote a :: target a ++ close_quote a :: z)
    with ("h"%char :: chars "ref=" ++ open_quote a :: target a
                   ++ close_quote a :: z).
  apply greedy_first.
  - reflexivity.
  - unfold z.
    replace (chars "ref=" ++ open_quote a :: target a ++ close_quote a
                   :: more_attrs a ++ ">"%char :: following a ++ d)
      with ((chars "ref=" ++ open_quote a :: target a ++ close_quote a
                   :: more_attrs a) ++ ">"%char :: following a ++ d)
      by (repeat (rewrite <- app_assoc; cbn [app]); reflexivity).
    apply greedy_none; [|reflexivity].
    intros t1 t2 E. apply exec_lit_none.
    exact (@no_later_href (open_quote a) (target a) (close_quote a)
                          (more_attrs a) (following a ++ d)
                          Hq1 Hq2 Hv Hm t1 t2 E).
  - change ("h"%char :: chars "ref=" ++ open_quote a :: target a
                     ++ close_quote a :: z)
      with (chars "href=" ++ open_quote a :: target a ++ close_quote a :: z).
    rewrite exec_lit_app. now apply link_value.
Qed.

(** ** The link scan over a document of plain anchors *)

Lemma str_prefix (v r : text) : str {| first := v ++ r; second := r |} = v.
Proof.
  unfold str. cbn [first second]. rewrite length_app.
  replace (List.length v + List.length r - List.length r)
    with (List.length v + 0) by lia.
  rewrite firstn_app_2. cbn [firstn]. apply app_nil_r.
Qed.

Lemma starts_with_pair (ic : bool) (x y c : ascii) (t s : text) :
  starts_with ic [x; y] (c :: t) = false ->
  starts_with ic [y] s = false ->
  starts_with ic [x; y] (c :: t ++ s) = false.
Proof.
  cbn [starts_with]. intros H Hs.
  destruct (Ascii.eqb (translate ic x) (translate ic c)); [|reflexivity].
  destruct t as [|e t]; [exact Hs | exact H].
Qed.

(** No attempt succeeds inside a text without [<a], as long as the text
    after it does not begin with the letter. *)
Lemma link_skip (x s : text) :
  occurs true "<a" x = false -> starts_with true "a" s = false ->
  regex_search linkRegex (x ++ s) = regex_search linkRegex s.
Proof.
  intros Hx Hs. apply regex_search_skip. intros t1 c t2 ->.
  apply occurs_tail, occurs_head in Hx.
  change (pattern linkRegex) with (lit "<a" ++ skipn 2 (pattern linkRegex)).
  apply exec_lit_none.
  now apply (@starts_with_pair true "<" "a").
Qed.

Lemma anchors_start (anchors : list anchor) :
  starts_with true "a" (List.concat (map anchor_text anchors)) = false.
Proof. destruct anchors; reflexivity. Qed.

(** The search from just behind a matched value finds what the search
    from the next anchor finds. *)
Lemma link_skip_rest (a : anchor) (d : text) :
  plain_anchor a = true -> starts_with true "a" d = false ->
  regex_search linkRegex (more_attrs a ++ ">"%char :: following a ++ d)
  = regex_search linkRegex d.
Proof.
  intros Ha Hd. apply plain_anchor_inv in Ha.
  destruct Ha as (_ & _ & _ & _ & _ & _ & _ & _ & _ & Hm & Hf).
  rewrite link_skip by (exact Hm || reflexivity).
  rewrite regex_search_next by reflexivity.
  now apply link_skip.
Qed.

Lemma link_scan_anchors (anchors : list anchor) (found : list text) :
  forallb plain_anchor anchors = true ->
  scan (S (List.length anchors)) linkRegex
       (List.concat (map anchor_text anchors)) found
  = Some (found ++ map target anchors).
Proof.
  revert found. induction anchors as [|a anchors IH]; intros found Hall.
  - cbn. now rewrite app_nil_r.
  - cbn [forallb] in Hall. apply andb_true_iff in Hall as [Ha Hall].
    cbn [map List.concat List.length].
    erewrite scan_more
      by (apply regex_search_here; cbn [icase linkRegex];
          exact (link_tag a _ Ha)).
    cbn [suffix at_ nth first second].
    rewrite str_prefix.
    erewrite scan_same_search
      by (apply link_skip_rest; [exact Ha | apply anchors_start]).
    rewrite IH by exact Hall. now rewrite <- app_assoc.
Qed.

Lemma anchor_text_length (a : anchor) : 0 < List.length (anchor_text a).
Proof. unfold anchor_text. cbn. lia. Qed.

Lemma anchors_length (anchors : list anchor) :
  List.length anchors <= List.length (List.concat (map anchor_text anchors)).
Proof.
  induction anchors as [|a anchors IH]; [reflexivity|].
  cbn [map List.concat List.length]. rewrite length_app.
  pose proof (anchor_text_length a). lia.
Qed.

Lemma link_scan_document (preamble : text) (anchors : list anchor) :
  occurs true "<a" preamble = false ->
  forallb plain_anchor anchors = true ->
  scan_all linkRegex (document preamble anchors) = Some (map target anchors).
Proof.
  intros Hp Hall. unfold scan_all, document.
  erewrite scan_same_search by (apply link_skip; [exact Hp | apply anchors_start]).
  apply scan_fuel_mono with (n := S (List.length anchors)).
  - rewrite length_app. pose proof (anchors_length anchors). lia.
  - apply (link_scan_anchors anchors [] Hall).
Qed.

Lemma extract_links (html : text) (ls : list text) :
  scan_all linkRegex html = Some ls ->
  option_map links (extract html) = Some ls.
Proof.
  intros H. destruct buttonRegex_head as [p Hp].
  destruct (scan_all_total buttonRegex Hp html) as [bs Hb].
  unfold extract. now rewrite H, Hb.
Qed.

Lemma extract_buttons (html : text) (bs : list text) :
  scan_all buttonRegex html = Some bs ->
  option_map buttons (extract html) = Some bs.
Proof.
  intros H. destruct linkRegex_head as [p Hp].
  destruct (scan_all_total linkRegex Hp html) as [ls Hl].
  unfold extract. now rewrite H, Hl.
Qed.

(** ** The button pattern *)

(** Whatever a search returns is a successful attempt at the iterator
    where the match begins. *)
Lemma regex_search_sound (re : basic_regex) (s : iterator)
      (m : match_results) :
  regex_search re s = Some m ->
  exists g e,
    m = {| first := first (at_ m 0); second := e |} :: g
    /\ exec (icase re) (pattern re) (first (at_ m 0)) initial = Some (g, e).
Proof.
  induction s as [|c s IH]; simpl.
  - destruct (exec (icase re) (pattern re) [] initial) as [[g e]|] eqn:E;
      [|discriminate].
    intros H. injection H as <-. now exists g, e.
  - destruct (exec (icase re) (pattern re) (c :: s) initial) as [[g e]|] eqn:E.
    + intros H. injection H as <-. now exists g, e.
    + exact IH.
Qed.

Lemma lacks_In (c : ascii) (x : text) (d : ascii) :
  lacks c x = true -> In d x -> Ascii.eqb d c = false.
Proof.
  unfold lacks. rewrite forallb_forall. intros H Hd.
  apply negb_true_iff. exact (H d Hd).
Qed.

Lemma line_break_cases (c : ascii) :
  is_line_break c = true -> c = LF \/ c = CR.
Proof.
  unfold is_line_break. intros H. apply orb_true_iff in H as [H | H];
    apply Ascii.eqb_eq in H; auto.
Qed.

Lemma line_break_not_in_close (nl : ascii) :
  is_line_break nl = true ->
  forall y, In y (chars "</button>") ->
            Ascii.eqb (translate true y) (translate true nl) = false.
Proof.
  intros H y Hy. destruct (line_break_cases _ H) as [-> | ->];
    simpl in Hy; intuition (subst; reflexivity).
Qed.

(** The attempt at an opening button tag fails when a line break comes
    before any closing tag: the dot of the group does not cross it. *)
Lemma button_attempt_fails (attributes inner : text) (nl : ascii)
      (rest : text) (st : mstate) :
  lacks ">" attributes = true ->
  is_line_break nl = true ->
  occurs true "</button>" inner = false ->
  exec true (pattern buttonRegex)
       (chars "<button" ++ attributes ++ ">"%char :: inner ++ nl :: rest) st
  = None.
Proof.
  intros Hattrs Hnl Hinner.
  change (pattern buttonRegex)
    with (lit "<button"
              ++ Term (Bracket true [">"%char]) Star
              :: lit ">"
              ++ [GroupBegin; Term Any LazyStar; GroupEnd]
              ++ lit "</button>" ++ []).
  rewrite exec_lit_app. cbn [exec].
  apply greedy_none; [|reflexivity].
  intros t1 [|c t2] E.
  - change ([] ++ ">"%char :: inner ++ nl :: rest)
      with (chars ">" ++ inner ++ nl :: rest).
    rewrite exec_lit_app. cbn [app exec].
    apply lazy_none.
    + intros u1 u2 Eu. apply exec_lit_none.
      exact (@no_start_occurs true "</button>" inner nl rest
               (line_break_not_in_close nl Hnl) Hinner u1 u2 Eu).
    + destruct (line_break_cases _ Hnl) as [-> | ->]; reflexivity.
  - apply exec_lit_none. cbn [app starts_with chars list_ascii_of_string].
    rewrite eqb_fold_other by reflexivity.
    rewrite Ascii.eqb_sym, (@lacks_In ">" attributes c Hattrs);
      [reflexivity|].
    rewrite E. apply in_or_app. right. now left.
Qed.

(** ** Printing *)

Lemma unlines_app (xs ys : list text) :
  unlines (xs ++ ys) = unlines xs ++ unlines ys.
Proof. unfold unlines. now rewrite map_app, concat_app. Qed.

Lemma print_items_cout (xs : list text) (p : process) :
  cout (print_items xs p) = cout p ++ unlines (map item_line xs).
Proof.
  unfold print_items. revert p. induction xs as [|x xs IH]; intros p.
  - cbn. now rewrite app_nil_r.
  - cbn [fold_left map]. rewrite IH. cbn [to_cout cout].
    unfold unlines, item_line, endl. cbn [map List.concat].
    now repeat rewrite <- app_assoc.
Qed.

Lemma print_items_other (xs : list text) (p : process) :
  cerr (print_items xs p) = cerr p
  /\ requests (print_items xs p) = requests p.
Proof.
  unfold print_items. revert p. induction xs as [|x xs IH]; intros p.
  - now split.
  - cbn [fold_left]. destruct (IH (to_cout endl (to_cout x (to_cout " - " p))))
      as [-> ->]. now split.
Qed.

Lemma print_result_other (r : ExtractionResult) (p : process) :
  cerr (print_result r p) = cerr p
  /\ requests (print_result r p) = requests p.
Proof.
  unfold print_result.
  destruct (print_items_other (buttons r)
              (to_cout (LF :: chars "Buttons found:" ++ [LF])
                 (print_items (links r)
                    (to_cout (chars "Links found:" ++ [LF]) p)))) as [-> ->].
  cbn [to_cout cerr requests].
  destruct (print_items_other (links r)
              (to_cout (chars "Links found:" ++ [LF]) p)) as [-> ->].
  now split.
Qed.

Lemma print_result_cout (r : ExtractionResult) (p : process) :
  cout (print_result r p) = cout p ++ rendered_spec r.
Proof.
  unfold print_result, rendered_spec.
  rewrite print_items_cout. cbn [to_cout cout].
  rewrite print_items_cout. cbn [to_cout cout].
  rewrite !unlines_app. unfold unlines. cbn [map List.concat app].
  repeat (rewrite <- app_assoc; cbn [app]). rewrite ?app_nil_r.
  reflexivity.
Qed.

(** ** The run of [main] on a fetched body *)

Lemma main_fetched (curl : libcurl) (argv : list text) (chunks : list text) :
  2 <= List.length argv ->
  curl_easy_init curl = true ->
  curl_easy_perform curl (nth 1 argv []) = (chunks, CURLE_OK) ->
  exists r,
    extract (received chunks) = Some r
    /\ main curl argv
       = Some (print_result r (request (nth 1 argv []) start), 0%Z).
Proof.
  intros Hargc Hinit Hperform.
  destruct (extract_total (received chunks)) as [r Hr].
  exists r. split; [exact Hr|].
  unfold main. destruct (Nat.ltb_spec (List.length argv) 2) as [H | _]; [lia|].
  rewrite Hinit, Hperform. cbn [negb Nat.eqb CURLE_OK]. now rewrite Hr.
Qed.

(** *** The nearest closing tag *)

Lemma any_matches (c : ascii) :
  atom_matches true Any c = negb (is_line_break c).
Proof.
  unfold atom_matches, is_line_break.
  rewrite (Ascii.eqb_sym (translate true c) (translate true LF)).
  rewrite (Ascii.eqb_sym (translate true c) (translate true CR)).
  rewrite !eqb_fold_other by reflexivity.
  rewrite (Ascii.eqb_sym LF), (Ascii.eqb_sym CR).
  now rewrite negb_orb.
Qed.






(** ** Bodies without the opening angle bracket *)

Lemma lacks_app (c : ascii) (x y : text) :
  lacks c (x ++ y) = lacks c x && lacks c y.
Proof. unfold lacks. apply forallb_app. Qed.

Lemma lacks_cons (c d : ascii) (y : text) :
  lacks c (d :: y) = negb (Ascii.eqb d c) && lacks c y.
Proof. reflexivity. Qed.

Lemma lacks_first_no_occurs (c : ascii) (p x : text) :
  is_letter c = false -> lacks c x = true -> occurs true (c :: p) x = false.
Proof.
  intros Hc. induction x as [|d x IH]; intros Hx; [reflexivity|].
  cbn [lacks forallb] in Hx. apply andb_true_iff in Hx as [Hd Hx].
  cbn [occurs starts_with]. rewrite eqb_fold_other by exact Hc.
  rewrite Ascii.eqb_sym. apply negb_true_iff in Hd. rewrite Hd.
  cbn [andb orb]. now apply IH.
Qed.

Lemma button_skip (x s : text) :
  lacks "<" x = true ->
  regex_search buttonRegex (x ++ s) = regex_search buttonRegex s.
Proof.
  intros Hx. apply regex_search_skip. intros t1 c t2 E.
  change (pattern buttonRegex)
    with (lit "<button" ++ skipn 7 (pattern buttonRegex)).
  apply exec_lit_none. cbn [starts_with chars list_ascii_of_string].
  rewrite eqb_fold_other by reflexivity.
  rewrite Ascii.eqb_sym, (@lacks_In "<" x c Hx); [reflexivity|].
  rewrite E. apply in_or_app. right. now left.
Qed.

(** A body whose only markup is one button element with a line break in
    its text: no search succeeds anywhere in it. *)
Lemma multiline_button_search (before attributes inner1 : text) (nl : ascii)
      (inner2 after : text) :
  lacks "<" before = true ->
  lacks "<" attributes = true -> lacks ">" attributes = true ->
  lacks "<" inner1 = true -> is_line_break nl = true ->
  lacks "<" inner2 = true -> lacks "<" after = true ->
  regex_search buttonRegex
    (before ++ button_element attributes (inner1 ++ nl :: inner2) ++ after)
  = None.
Proof.
  intros Hb Ha Hgt H1 Hnl H2 Hafter.
  replace (before ++ button_element attributes (inner1 ++ nl :: inner2)
                  ++ after)
    with (before
            ++ "<"%char
            :: (chars "button" ++ attributes ++ ">"%char
                      :: inner1 ++ nl :: inner2)
            ++ "<"%char :: (chars "/button>" ++ after) ++ [])
    by (unfold button_element; rewrite app_nil_r;
        repeat (rewrite <- app_assoc; cbn [app]); reflexivity).
  rewrite button_skip by exact Hb.
  rewrite regex_search_next.
  - rewrite button_skip.
    + rewrite regex_search_next by reflexivity.
      rewrite button_skip; [reflexivity|].
      rewrite lacks_app, Hafter. reflexivity.
    + rewrite !lacks_app, lacks_cons, lacks_app, lacks_cons, Ha, H1, H2.
      destruct (line_break_cases _ Hnl) as [-> | ->]; reflexivity.
  - cbn [icase buttonRegex].
    replace ("<"%char
               :: (chars "button" ++ attributes ++ ">"%char
                         :: inner1 ++ nl :: inner2)
               ++ "<"%char :: (chars "/button>" ++ after) ++ [])
      with (chars "<button" ++ attributes ++ ">"%char
                  :: inner1 ++ nl
                  :: inner2 ++ "<"%char :: (chars "/button>" ++ after) ++ [])
      by (repeat (rewrite <- app_assoc; cbn [app]); reflexivity).
    apply button_attempt_fails; [exact Hgt | exact Hnl |].
    now apply lacks_first_no_occurs.
Qed.

(** ** The button scan over a document of regular buttons *)







(** ** The invokers *)

Lemma fgets_chars_rest (room : nat) (s : text) :
  List.length (snd (CliBridge.fgets_chars room s)) <= List.length s.
Proof.
  revert s. induction room as [|room IH]; intros s; [reflexivity|].
  destruct s as [|c s]; [reflexivity|]. cbn [CliBridge.fgets_chars].
  destruct (Ascii.eqb c LF); cbn [snd List.length]; [lia|].
  specialize (IH s). destruct (CliBridge.fgets_chars room s) as [l r].
  cbn [snd] in *. lia.
Qed.

Lemma fgets_chars_progress (room : nat) (c : ascii) (s : text) :
  List.length (snd (CliBridge.fgets_chars (S room) (c :: s)))
  < List.length (c :: s).
Proof.
  cbn [CliBridge.fgets_chars List.length].
  destruct (Ascii.eqb c LF); cbn [snd]; [lia|].
  pose proof (fgets_chars_rest room s) as Hle.
  destruct (CliBridge.fgets_chars room s) as [l r]. cbn [snd] in *. lia.
Qed.

Lemma fgets_progress (s buffer rest : text) :
  CliBridge.fgets 256 s = Some (buffer, rest) ->
  List.length rest < List.length s.
Proof.
  destruct s as [|c s]; [discriminate|].
  unfold CliBridge.fgets. change (256 - 1) with (S 254).
  pose proof (fgets_chars_progress 254 c s) as Hlt.
  destruct (CliBridge.fgets_chars (S 254) (c :: s)) as [l r].
  cbn [snd] in Hlt. intros H. injection H as _ <-. exact Hlt.
Qed.

(** The read loop ends: every [fgets] that returns takes a character. *)
Lemma read_all_total (fuel : nat) (s result : text) :
  List.length s < fuel -> exists r, CliBridge.read_all fuel s result = Some r.
Proof.
  revert s result. induction fuel as [|fuel IH]; intros s result Hlt; [lia|].
  cbn [CliBridge.read_all].
  destruct (CliBridge.fgets 256 s) as [[buffer rest]|] eqn:E.
  - apply IH. apply fgets_progress in E. lia.
  - now exists result.
Qed.

(** [cli_bridge] returns 1 when [popen] gives no stream. *)
Lemma bridge_popen_failure (popen : CliBridge.shell) (argv : list text) :
  2 <= List.length argv ->
  popen (CliBridge.command argv) = None ->
  exists p, CliBridge.main popen argv = Some (p, 1%Z).
Proof.
  intros Hargc Hpipe. unfold CliBridge.main.
  destruct (Nat.ltb_spec (List.length argv) 2) as [H | _]; [lia|].
  rewrite Hpipe. eauto.
Qed.

(** [cli_runner] returns what [std::system] returned. *)
Lemma runner_returns_status (system : text -> Z) (argv : list text) :
  2 <= List.length argv ->
  snd (CliRunner.main system argv) = system (CliRunner.command argv).
Proof.
  intros H. unfold CliRunner.main.
  destruct (Nat.ltb_spec (List.length argv) 2); [lia | reflexivity].
Qed.

(** ** The matcher on a bounded call stack *)

Section BoundedStack.
Import Stack.
Variable ic : bool.

Lemma one_agrees (a : atom) (k' : cont_on) (k : cont) :
  agrees k' k -> agrees (one_on ic a k') (one ic a k).
Proof.
  intros Hk frames [|c s] st o; cbn [one_on one].
  - now intros [= <-].
  - destruct (atom_matches ic a c); [|now intros [= <-]].
    destruct frames as [|frames]; [discriminate | apply Hk].
Qed.

Lemma greedy_agrees (a : atom) (k' : cont_on) (k : cont) :
  agrees k' k ->
  agrees (fun frames s st => greedy_on ic a k' s frames st) (greedy ic a k).
Proof.
  intros Hk frames s. revert frames.
  induction s as [|c s IH]; intros frames st o; cbn [greedy_on greedy].
  - apply Hk.
  - destruct (atom_matches ic a c); [|apply Hk].
    destruct frames as [|frames]; [discriminate|].
    destruct (greedy_on ic a k' s frames st) as [|[r|]] eqn:E;
      [discriminate | |].
    + intros [= <-]. now rewrite (IH _ _ _ E).
    + intros H. rewrite (IH _ _ _ E). exact (Hk _ _ _ _ H).
Qed.

Lemma lazy_agrees (a : atom) (k' : cont_on) (k : cont) :
  agrees k' k ->
  agrees (fun frames s st => lazy_on ic a k' s frames st) (lazy ic a k).
Proof.
  intros Hk frames s. revert frames.
  induction s as [|c s IH]; intros frames st o; cbn [lazy_on lazy].
  - destruct (k' frames [] st) as [|[r|]] eqn:E; [discriminate | |];
      rewrite (Hk _ _ _ _ E); now intros [= <-].
  - destruct (k' frames (c :: s) st) as [|[r|]] eqn:E; [discriminate | |];
      rewrite (Hk _ _ _ _ E); [now intros [= <-]|].
    destruct (atom_matches ic a c); [|now intros [= <-]].
    destruct frames as [|frames]; [discriminate | apply IH].
Qed.

(** An attempt that returns on the bounded stack returns what the
    attempt without bound returns. *)
Lemma exec_agrees (p : list node) : agrees (exec_on ic p) (exec ic p).
Proof.
  induction p as [|n p IH].
  - intros frames s st o. cbn. now intros [= <-].
  - destruct n as [a [] | |]; cbn [exec_on exec].
    + now apply one_agrees.
    + now apply greedy_agrees.
    + now apply one_agrees, greedy_agrees.
    + now apply lazy_agrees.
    + intros frames s st o. apply IH.
    + intros frames s st o. apply IH.
Qed.

(** A repetition over more characters than there are frames is
    killed. *)
Lemma greedy_on_killed (a : atom) (k : cont_on) (x s : iterator)
      (frames : nat) (st : mstate) :
  forallb (atom_matches ic a) x = true ->
  frames < List.length x ->
  greedy_on ic a k (x ++ s) frames st = Killed.
Proof.
  revert frames. induction x as [|c x IH]; intros frames Hx Hlen;
    cbn [List.length] in Hlen; [lia|].
  cbn [forallb] in Hx. apply andb_true_iff in Hx as [Hc Hx].
  cbn [app greedy_on]. rewrite Hc.
  destruct frames as [|frames]; [reflexivity|].
  rewrite IH by (exact Hx || lia). reflexivity.
Qed.

End BoundedStack.

Lemma regex_search_agrees (frames : nat) (re : basic_regex) (s : iterator)
      (o : option match_results) :
  Stack.regex_search_on frames re s = Stack.Returned o ->
  regex_search re s = o.
Proof.
  induction s as [|c s IH]; cbn [Stack.regex_search_on regex_search].
  - destruct (Stack.exec_on (icase re) (pattern re) frames [] initial)
      as [|[[g e]|]] eqn:E; [discriminate | |];
      rewrite (exec_agrees _ _ _ _ _ E); now intros [= <-].
  - destruct (Stack.exec_on (icase re) (pattern re) frames (c :: s) initial)
      as [|[[g e]|]] eqn:E; [discriminate | |];
      rewrite (exec_agrees _ _ _ _ _ E); [now intros [= <-] | exact IH].
Qed.

Lemma scan_agrees (fuel frames : nat) (re : basic_regex) (s : iterator)
      (found r : list text) :
  Stack.scan_on fuel frames re s found = Some (Stack.Returned r) ->
  scan fuel re s found = Some r.
Proof.
  revert s found. induction fuel as [|fuel IH]; intros s found;
    [discriminate|].
  cbn [Stack.scan_on scan].
  destruct (Stack.regex_search_on frames re s) as [|[m|]] eqn:E;
    [discriminate | |]; rewrite (regex_search_agrees _ _ _ E).
  - apply IH.
  - now intros [= <-].
Qed.

(** The scan loop ends on the bounded stack too: it returns or is
    killed. *)
Lemma scan_on_total (frames : nat) (re : basic_regex) (a : atom)
      (p : list node) :
  pattern re = Term a Once :: p ->
  forall fuel s found,
    List.length s < fuel ->
    exists o, Stack.scan_on fuel frames re s found = Some o.
Proof.
  intros Hp fuel. induction fuel as [|fuel IH]; intros s found Hlt; [lia|].
  cbn [Stack.scan_on].
  destruct (Stack.regex_search_on frames re s) as [|[m|]] eqn:E; eauto.
  apply IH. apply regex_search_agrees in E.
  apply (regex_search_progress re Hp) in E. lia.
Qed.

Lemma extract_on_total (frames : nat) (html : text) :
  exists o, Stack.extract_on frames html = Some o.
Proof.
  destruct linkRegex_head as [p Hp]. destruct buttonRegex_head as [p' Hp'].
  unfold Stack.extract_on, Stack.scan_all_on.
  destruct (@scan_on_total frames linkRegex _ _ Hp (S (List.length html))
                           html [] (Nat.lt_succ_diag_r _)) as [[|ls] ->];
    [eauto|].
  destruct (@scan_on_total frames buttonRegex _ _ Hp' (S (List.length html))
                           html [] (Nat.lt_succ_diag_r _)) as [[|bs] ->];
    eauto.
Qed.

Lemma extract_agrees (frames : nat) (html : text) (r : ExtractionResult) :
  Stack.extract_on frames html = Some (Stack.Returned r) ->
  extract html = Some r.
Proof.
  unfold Stack.extract_on, Stack.scan_all_on, extract, scan_all.
  destruct (Stack.scan_on (S (List.length html)) frames linkRegex html [])
    as [[|ls]|] eqn:El; try discriminate.
  destruct (Stack.scan_on (S (List.length html)) frames buttonRegex html [])
    as [[|bs]|] eqn:Eb; try discriminate.
  intros [= <-].
  now rewrite (scan_agrees _ _ _ _ _ El), (scan_agrees _ _ _ _ _ Eb).
Qed.

(** A run that returns on the bounded stack is a run of [main]: what is
    proved of [main] holds of every run that is not killed. *)
Lemma main_agrees (frames : nat) (curl : libcurl) (argv : list text)
      (x : process * Z) :
  Stack.main_on frames curl argv = Some (Stack.Returned x) ->
  main curl argv = Some x.
Proof.
  unfold Stack.main_on, main.
  destruct (List.length argv <? 2)%nat; [now intros [= <-]|].
  destruct (negb (curl_easy_init curl)); [now intros [= <-]|].
  destruct (curl_easy_perform curl (nth 1 argv [])) as [chunks res].
  destruct (negb (res =? CURLE_OK)%nat); [now intros [= <-]|].
  destruct (Stack.extract_on frames (received chunks)) as [[|r]|] eqn:E;
    try discriminate.
  intros [= <-]. now rewrite (extract_agrees _ _ E).
Qed.

Lemma forallb_repeat (A : Type) (f : A -> bool) (x : A) (n : nat) :
  f x = true -> forallb f (repeat x n) = true.
Proof. intros H. induction n; cbn; [reflexivity | now rewrite H]. Qed.

(** The first attempt of the link scan on an opening tag that does not
    end within the free frames is killed. *)
Lemma long_tag_search_killed (frames : nat) :
  Stack.regex_search_on frames linkRegex
                        (chars "<a" ++ repeat "x"%char frames)
  = Stack.Killed.
Proof.
  assert (H : Stack.exec_on true (pattern linkRegex) frames
                            (chars "<a" ++ repeat "x"%char frames) initial
              = Stack.Killed).
  { change (pattern linkRegex)
      with (Term (Char "<") Once :: Term (Char "a") Once
                 :: Term (Bracket true [">"%char]) Star
                 :: skipn 3 (pattern linkRegex)).
    cbn [Stack.exec_on chars list_ascii_of_string app Stack.one_on].
    change (atom_matches true (Char "<") "<") with true. cbv iota.
    destruct frames as [|[|frames]]; [reflexivity | reflexivity |].
    change (atom_matches true (Char "a") "a") with true. cbv iota.
    rewrite <- (app_nil_r (repeat "x"%char (S (S frames)))).
    apply greedy_on_killed.
    - now apply forallb_repeat.
    - rewrite repeat_length. lia. }
  cbn [chars list_ascii_of_string app Stack.regex_search_on icase linkRegex]
    in *.
  now rewrite H.
Qed.

(** ** The link scan over a document of regular anchors *)













(** A body that is one plain anchor tag yields its value. *)
Lemma links_of_single_anchor (a : anchor) :
  plain_anchor a = true ->
  option_map links (extract (anchor_text a)) = Some [target a].
Proof.
  intros Ha.
  assert (Hall : forallb plain_anchor [a] = true)
    by (cbn [forallb]; now rewrite Ha).
  pose proof (link_scan_document [] [a] eq_refl Hall) as H.
  unfold document in H. cbn [map List.concat app] in H.
  rewrite app_nil_r in H. exact (extract_links _ H).
Qed.

(** * The claims *)

Unset Implicit Arguments.

(** C1: on the body <button>Outer<button>Inner</button></button> the
    extractor yields exactly one button label (and no link).  The label is
    the text from just behind the first opening tag up to the first
    closing tag, which is not part of it; it contains the inner opening
    tag and its text, and no closing tag. *)
Theorem nested_button_capture :
  let label := chars "Outer<button>Inner" in
  extract "<button>Outer<button>Inner</button></button>"
  = Some {| links := []; buttons := [label] |}
  /\ chars "<button>Outer<button>Inner</button></button>"
     = chars "<button>" ++ label ++ chars "</button>" ++ chars "</button>"
  /\ occurs true "<button>Inner" label = true
  /\ occurs true "</button>" label = false.
Proof.
  cbv zeta. split; [|split; [|split]].
  - vm_compute. reflexivity.
  - reflexivity.
  - reflexivity.
  - reflexivity.
Qed.


(** Each condition on the values and on the text between the tags is
    needed for that: an empty value yields no link; a second quoted href
    in the same tag replaces the first; a tag behind the anchor whose name
    begins with a and which has a quoted href adds a link; and an opening
    button tag that is not closed before the next button swallows that
    button's opening tag into the label. *)
Example conditions_are_needed :
  let a (value more behind : text) : anchor :=
    {| attrs := " "; open_quote := squote; target := value;
       close_quote := squote; more_attrs := more; following := behind |} in
  option_map links (extract (document [] [a "" "" "t</a>"])) = Some []
  /\ option_map links (extract (document [] [a "x" " data-href='y'" "t</a>"]))
     = Some [chars "y"]
  /\ option_map links
       (extract (document [] [a "x" "" "t</a><area href='m'>"]))
     = Some [chars "x"; chars "m"]
  /\ option_map buttons
       (extract (button_document "<button disabled><p>"
                   [{| button_attrs := []; label := "A"; trailing := "</p>" |}]))
     = Some [chars "<p><button>A"].
Proof.
  cbv zeta. repeat split; vm_compute; reflexivity.
Qed.



(** C4: the link rule ignores the case of the tag name and of the
    attribute name: <A HREF='x'>, <a href=Qx Q> (Q the double quote) and
    <a HREF='x'> each yield the single link x.  The value is taken
    verbatim: for every plain anchor tag the entry is the text between the
    quotes, character for character, so an entity or a percent escape in
    it stays as written. *)
Theorem link_rule_case_insensitive_verbatim :
  option_map links (extract "<A HREF='x'>") = Some [chars "x"]
  /\ option_map links
       (extract (chars "<a href=" ++ dquote :: chars "x" ++ dquote :: chars ">"))
     = Some [chars "x"]
  /\ option_map links (extract "<a HREF='x'>") = Some [chars "x"]
  /\ (forall a : anchor,
         plain_anchor a = true ->
         option_map links (extract (anchor_text a)) = Some [target a]).
Proof.
  repeat split; try (vm_compute; reflexivity).
  exact links_of_single_anchor.
Qed.

Lemma link_rule_verbatim_witness :
  option_map links
    (extract (anchor_text
                {| attrs := " "; open_quote := dquote;
                   target := "/s?q=a&amp;b%20c#top"; close_quote := dquote;
                   more_attrs := []; following := [] |}))
  = Some [chars "/s?q=a&amp;b%20c#top"].
Proof.
  apply (proj2 (proj2 (proj2 link_rule_case_insensitive_verbatim))).
  reflexivity.
Defined.

(** C5: extraction does not succeed for every body.  The scans hand the
    whole body to the matcher, which recurses once for every character a
    repetition takes and is not guarded: whatever the size of the call
    stack, after a successful fetch of a body made of [<a] and as many
    [x] as the stack has free frames the run is killed inside the link
    scan, so that it neither prints the two lists nor returns 0.  The
    empty body does give two empty sequences, on any stack. *)
Theorem long_tag_kills_the_run :
  (forall (frames : nat) (strerror : CURLcode -> text) (prog url : text),
      Stack.main_on frames
        {| curl_easy_init := true;
           curl_easy_perform :=
             fun _ => ([chars "<a" ++ repeat "x"%char frames], CURLE_OK);
           curl_easy_strerror := strerror |}
        [prog; url]
      = Some Stack.Killed)
  /\ (forall frames : nat,
         Stack.extract_on frames []
         = Some (Stack.Returned {| links := []; buttons := [] |})).
Proof.
  split; [|intros frames; reflexivity].
  intros frames strerror prog url.
  unfold Stack.main_on.
  cbn [List.length Nat.ltb Nat.leb curl_easy_init curl_easy_perform negb
       nth Nat.eqb CURLE_OK].
  unfold received, WriteCallback.
  cbn [fold_left fst app]. rewrite Nat.mul_1_l, firstn_all.
  unfold Stack.extract_on, Stack.scan_all_on.
  cbn [Stack.scan_on].
  now rewrite long_tag_search_killed.
Qed.

(** C6: with no URL argument ([argc < 2]) the mapper writes its usage line
    to the error channel, returns 1, writes no normal output and hands no
    URL to libcurl, whatever libcurl would do; the two invokers likewise
    return 1 with a diagnostic and run no command. *)
Theorem missing_argument (argv : list text) :
  List.length argv < 2 ->
  (forall curl : libcurl,
      WebsiteMapper.main curl argv
      = Some ({| cout := [];
                 cerr := chars "Usage: " ++ nth 0 argv [] ++ chars " <url>"
                               ++ [LF];
                 requests := [] |}, 1%Z))
  /\ (forall system : text -> Z,
         CliRunner.main system argv
         = ({| out := []; err := chars "No command provided" ++ [LF];
               commands := [] |}, 1%Z))
  /\ (forall popen : CliBridge.shell,
         CliBridge.main popen argv
         = Some ({| out := []; err := chars "Usage: cli_bridge <args>" ++ [LF];
                    commands := [] |}, 1%Z)).
Proof.
  intros Hargc. repeat split; intros env.
  - unfold WebsiteMapper.main.
    destruct (Nat.ltb_spec (List.length argv) 2) as [_ | H]; [|lia].
    unfold to_cerr, start, endl. cbn [cout cerr requests app].
    now repeat rewrite <- app_assoc.
  - unfold CliRunner.main.
    destruct (Nat.ltb_spec (List.length argv) 2) as [_ | H]; [|lia].
    reflexivity.
  - unfold CliBridge.main.
    destruct (Nat.ltb_spec (List.length argv) 2) as [_ | H]; [|lia].
    reflexivity.
Qed.

Lemma missing_argument_witness :
  (forall curl,
      WebsiteMapper.main curl [chars "website_mapper"]
      = Some ({| cout := [];
                 cerr := chars "Usage: " ++ chars "website_mapper"
                               ++ chars " <url>" ++ [LF];
                 requests := [] |}, 1%Z))
  /\ (forall system,
         CliRunner.main system [chars "website_mapper"]
         = ({| out := []; err := chars "No command provided" ++ [LF];
               commands := [] |}, 1%Z))
  /\ (forall popen,
         CliBridge.main popen [chars "website_mapper"]
         = Some ({| out := []; err := chars "Usage: cli_bridge <args>" ++ [LF];
                    commands := [] |}, 1%Z)).
Proof.
  apply (missing_argument [chars "website_mapper"]). simpl. lia.
Defined.

(** C7: when [curl_easy_perform] returns a code other than [CURLE_OK] the
    run ends with 1; the error channel holds the diagnostic with the
    reason libcurl gives for the code; nothing is written to normal
    output; and the outcome does not depend on what was received before
    the failure, so no result of an extraction is part of it.  More
    generally normal output is written by successful runs only: a run
    that returns a value other than 0 has written none. *)
Theorem transport_failure :
  (forall (curl : libcurl) (argv chunks : list text) (res : CURLcode),
      2 <= List.length argv ->
      curl_easy_init curl = true ->
      curl_easy_perform curl (nth 1 argv []) = (chunks, res) ->
      res <> CURLE_OK ->
      main curl argv
      = Some ({| cout := [];
                 cerr := chars "curl_easy_perform() failed: "
                               ++ curl_easy_strerror curl res ++ [LF];
                 requests := [nth 1 argv []] |}, 1%Z))
  /\ (forall (curl : libcurl) (argv : list text) (p : process) (code : Z),
         main curl argv = Some (p, code) -> code <> 0%Z -> cout p = []).
Proof.
  split.
  - intros curl argv chunks res Hargc Hinit Hperform Hres.
    unfold main.
    destruct (Nat.ltb_spec (List.length argv) 2) as [H | _]; [lia|].
    rewrite Hinit, Hperform. cbn [negb].
    destruct (Nat.eqb_spec res CURLE_OK) as [E | _]; [contradiction|].
    cbn [negb]. unfold to_cerr, request, start, endl.
    cbn [cout cerr requests app]. now repeat rewrite <- app_assoc.
  - intros curl argv p code. unfold main.
    destruct (List.length argv <? 2)%nat.
    { intros H. injection H as <- _. reflexivity. }
    destruct (curl_easy_init curl); cbn [negb].
    2:{ intros H. injection H as <- _. reflexivity. }
    destruct (curl_easy_perform curl (nth 1 argv [])) as [chunks res].
    destruct (res =? CURLE_OK)%nat; cbn [negb].
    2:{ intros H. injection H as <- _. reflexivity. }
    destruct (extract (received chunks)) as [r|]; [|discriminate].
    intros H. injection H as _ <-. congruence.
Qed.

Lemma transport_failure_witness :
  main {| curl_easy_init := true;
          curl_easy_perform := fun _ => ([chars "<a href='partial'>"], 6);
          curl_easy_strerror := fun _ => chars "Could not resolve hostname" |}
       [chars "website_mapper"; chars "http://nowhere.invalid/"]
  = Some ({| cout := [];
             cerr := chars "curl_easy_perform() failed: "
                           ++ chars "Could not resolve hostname" ++ [LF];
             requests := [chars "http://nowhere.invalid/"] |}, 1%Z).
Proof.
  apply (proj1 transport_failure
               {| curl_easy_init := true;
                  curl_easy_perform :=
                    fun _ => ([chars "<a href='partial'>"], 6);
                  curl_easy_strerror :=
                    fun _ => chars "Could not resolve hostname" |}
               [chars "website_mapper"; chars "http://nowhere.invalid/"]
               [chars "<a href='partial'>"] 6);
    [simpl; lia | reflexivity | reflexivity | discriminate].
Defined.

(** C8: a run whose fetch succeeded returns 0 and its normal output is,
    line by line: Links found:, one line of a blank, a dash, a blank and
    the link for each link, an empty line, Buttons found:, and one such
    line for each button label. *)
Theorem rendered_output (curl : libcurl) (argv chunks : list text) :
  2 <= List.length argv ->
  curl_easy_init curl = true ->
  curl_easy_perform curl (nth 1 argv []) = (chunks, CURLE_OK) ->
  exists r p,
    extract (received chunks) = Some r
    /\ main curl argv = Some (p, 0%Z)
    /\ cout p = rendered_spec r.
Proof.
  intros Hargc Hinit Hperform.
  destruct (main_fetched curl argv Hargc Hinit Hperform) as (r & Hr & Hmain).
  exists r, (print_result r (request (nth 1 argv []) start)).
  split; [exact Hr|]. split; [exact Hmain|].
  now rewrite print_result_cout.
Qed.

Lemma rendered_output_witness :
  exists r p,
    extract (received [chars "<a href='/a'>A</a><button>Go</button>";
                       chars "<a href='/b'>B</a>"]) = Some r
    /\ main {| curl_easy_init := true;
               curl_easy_perform :=
                 fun _ => ([chars "<a href='/a'>A</a><button>Go</button>";
                            chars "<a href='/b'>B</a>"], CURLE_OK);
               curl_easy_strerror := fun _ => [] |}
            [chars "website_mapper"; chars "http://example.org/"]
       = Some (p, 0%Z)
    /\ cout p = rendered_spec r.
Proof.
  apply (rendered_output
           {| curl_easy_init := true;
              curl_easy_perform :=
                fun _ => ([chars "<a href='/a'>A</a><button>Go</button>";
                           chars "<a href='/b'>B</a>"], CURLE_OK);
              curl_easy_strerror := fun _ => [] |}
           [chars "website_mapper"; chars "http://example.org/"]);
    [simpl; lia | reflexivity | reflexivity].
Defined.

(** C9: a button whose text has a line break before any closing tag
    produces no label.  No search ever returns a match that begins at the
    opening tag of such a button, whatever precedes and follows it; and a
    body whose only markup is that one button element yields no button
    label at all. *)
Theorem multiline_button_skipped (attributes inner1 : text) (nl : ascii) :
  lacks ">" attributes = true ->
  is_line_break nl = true ->
  occurs true "</button>" inner1 = false ->
  (forall (rest s : text) (m : match_results),
      regex_search buttonRegex s = Some m ->
      first (at_ m 0)
      <> chars "<button" ++ attributes ++ ">"%char :: inner1 ++ nl :: rest)
  /\ (forall before inner2 after : text,
         lacks "<" before = true -> lacks "<" attributes = true ->
         lacks "<" inner1 = true -> lacks "<" inner2 = true ->
         lacks "<" after = true ->
         option_map buttons
           (extract (before
                       ++ button_element attributes (inner1 ++ nl :: inner2)
                       ++ after))
         = Some []).
Proof.
  intros Hgt Hnl Hinner. split.
  - intros rest s m Hm Heq.
    destruct (regex_search_sound _ _ Hm) as (g & e & _ & Hexec).
    rewrite Heq in Hexec. cbn [icase buttonRegex] in Hexec.
    rewrite button_attempt_fails in Hexec by assumption. discriminate.
  - intros before inner2 after Hb Ha H1 H2 Hafter.
    apply extract_buttons. unfold scan_all. apply scan_done.
    now apply multiline_button_search.
Qed.

Lemma multiline_button_skipped_witness :
  option_map buttons
    (extract (chars "Press "
                ++ button_element " class='x'"
                     (chars "Save" ++ LF :: chars "changes")
                ++ chars " now"))
  = Some [].
Proof.
  apply (proj2 (multiline_button_skipped " class='x'" "Save" LF
                  eq_refl eq_refl eq_refl));
    reflexivity.
Defined.

(** C10: the body <abbr href=Qx Q> (Q the double quote), which has no
    anchor element, yields the link x; and so does every tag whose name
    merely begins with the letter a: the pattern does not look at what
    follows that letter. *)
Theorem non_anchor_tag_yields_link :
  (let body := chars "<abbr href=" ++ dquote :: chars "x" ++ dquote :: chars ">" in
   option_map links (extract body) = Some [chars "x"]
   /\ occurs true "<a " body = false /\ occurs true "<a>" body = false)
  /\ (forall name : text,
         lacks ">" name = true ->
         option_map links
           (extract (chars "<a" ++ name ++ chars " href="
                           ++ dquote :: chars "x" ++ dquote :: chars ">"))
         = Some [chars "x"]).
Proof.
  split.
  - cbv zeta. repeat split; vm_compute; reflexivity.
  - intros name Hname.
    pose proof (links_of_single_anchor
                  {| attrs := name ++ chars " "; open_quote := dquote;
                     target := "x"; close_quote := dquote;
                     more_attrs := []; following := [] |}) as H.
    unfold anchor_text in H. cbn [attrs open_quote target close_quote
                                   more_attrs following] in H.
    replace (chars "<a" ++ name ++ chars " href="
                   ++ dquote :: chars "x" ++ dquote :: chars ">")
      with (chars "<a" ++ (name ++ chars " ") ++ chars "href="
                  ++ [dquote] ++ chars "x" ++ [dquote] ++ [] ++ chars ">" ++ [])
      by (repeat (rewrite <- app_assoc; cbn [app]); reflexivity).
    apply H. unfold plain_anchor.
    cbn [attrs open_quote target close_quote more_attrs following].
    rewrite lacks_app, Hname. reflexivity.
Qed.

Lemma non_anchor_tag_yields_link_witness :
  option_map links
    (extract (chars "<a" ++ chars "rticle data-k='v'" ++ chars " href="
                    ++ dquote :: chars "x" ++ dquote :: chars ">"))
  = Some [chars "x"].
Proof.
  apply (proj2 non_anchor_tag_yields_link "rticle data-k='v'"). reflexivity.
Defined.

(** C2: the output-capturing invoker returns 0 whenever the pipe could be
    opened, whatever status the subprocess ends with: the status is never
    read.  (The stream-inheriting invoker returns the value of
    [std::system], see [runner_returns_status].) *)
Theorem bridge_discards_exit_status (popen : CliBridge.shell)
        (argv : list text) (pipe : CliBridge.FILE) :
  2 <= List.length argv ->
  popen (CliBridge.command argv) = Some pipe ->
  exists p, CliBridge.main popen argv = Some (p, 0%Z).
Proof.
  intros Hargc Hpipe. unfold CliBridge.main.
  destruct (Nat.ltb_spec (List.length argv) 2) as [H | _]; [lia|].
  rewrite Hpipe.
  destruct (@read_all_total (S (List.length (CliBridge.stream pipe)))
                            (CliBridge.stream pipe) [])
    as [result Hr]; [lia|].
  rewrite Hr. eauto.
Qed.

Lemma bridge_discards_exit_status_witness :
  exists p,
    CliBridge.main
      (fun _ => Some {| CliBridge.stream := chars "error: no such task" ++ [LF];
                        CliBridge.status := 256 |})
      [chars "cli_bridge"; chars "frobnicate"]
    = Some (p, 0%Z).
Proof.
  apply (bridge_discards_exit_status
           (fun _ => Some {| CliBridge.stream :=
                               chars "error: no such task" ++ [LF];
                             CliBridge.status := 256 |})
           [chars "cli_bridge"; chars "frobnicate"]
           {| CliBridge.stream := chars "error: no such task" ++ [LF];
              CliBridge.status := 256 |});
    [simpl; lia | reflexivity].
Defined.

(** * Further properties of the code *)

Set Implicit Arguments.

(** ** What a successful attempt looks like *)

Section Inversion.
Variable ic : bool.

Lemma one_inv (a : atom) (k : cont) (s : iterator) (st : mstate) r :
  one ic a k s st = Some r ->
  exists c s', s = c :: s' /\ atom_matches ic a c = true /\ k s' st = Some r.
Proof.
  destruct s as [|c s]; simpl; [discriminate|].
  destruct (atom_matches ic a c) eqn:E; [|discriminate].
  intros H. now exists c, s.
Qed.

Lemma greedy_inv (a : atom) (k : cont) (s : iterator) (st : mstate) r :
  greedy ic a k s st = Some r ->
  exists x s',
    s = x ++ s' /\ forallb (atom_matches ic a) x = true /\ k s' st = Some r.
Proof.
  induction s as [|c s IH]; simpl.
  - intros H. now exists [], [].
  - destruct (atom_matches ic a c) eqn:E.
    + destruct (greedy ic a k s st) as [r'|] eqn:G.
      * intros H. injection H as ->.
        destruct (IH eq_refl) as (x & s' & -> & Hx & Hk).
        exists (c :: x), s'. cbn [forallb]. now rewrite E, Hx.
      * intros H. now exists [], (c :: s).
    + intros H. now exists [], (c :: s).
Qed.

Lemma lazy_inv (a : atom) (k : cont) (s : iterator) (st : mstate) r :
  lazy ic a k s st = Some r ->
  exists x s',
    s = x ++ s' /\ forallb (atom_matches ic a) x = true
    /\ k s' st = Some r
    /\ (forall t1 c t2, x = t1 ++ c :: t2 -> k (c :: t2 ++ s') st = None).
Proof.
  induction s as [|c s IH]; simpl.
  - destruct (k [] st) as [r'|] eqn:K; [|discriminate].
    intros H. injection H as ->. exists [], []. repeat split; auto.
    intros [|? ?] ? ? E; discriminate.
  - destruct (k (c :: s) st) as [r'|] eqn:K.
    + intros H. injection H as ->. exists [], (c :: s). repeat split; auto.
      intros [|? ?] ? ? E; discriminate.
    + destruct (atom_matches ic a c) eqn:E; [|discriminate].
      intros H. destruct (IH H) as (x & s' & -> & Hx & Hk & Hnone).
      exists (c :: x), s'. cbn [forallb]. rewrite E, Hx.
      repeat split; auto.
      intros [|d t1] e t2 Et; cbn [app] in Et; injection Et as -> Et.
      * subst x. exact K.
      * eapply Hnone; eauto.
Qed.

Lemma exec_lit_inv (p : text) (rest : list node) (s : iterator)
      (st : mstate) r :
  exec ic (lit p ++ rest) s st = Some r ->
  exists x s',
    s = x ++ s' /\ starts_with ic p s = true /\ exec ic rest s' st = Some r.
Proof.
  rewrite exec_lit. destruct (starts_with ic p s) eqn:E; [|discriminate].
  intros H. exists (firstn (List.length p) s), (skipn (List.length p) s).
  now rewrite firstn_skipn.
Qed.

Lemma starts_with_extend (p t s : text) :
  starts_with ic p t = true -> starts_with ic p (t ++ s) = true.
Proof.
  revert t. induction p as [|x p IH]; intros t H; [reflexivity|].
  destruct t as [|d t]; [discriminate|]. cbn [app starts_with] in *.
  apply andb_true_iff in H as [-> H]. now apply IH.
Qed.

Lemma occurs_behind (p a s : text) :
  starts_with ic p s = true -> occurs ic p (a ++ s) = true.
Proof.
  intros H. induction a as [|c a IH]; cbn [app].
  - destruct s; cbn [occurs]; now rewrite H.
  - cbn [occurs]. rewrite IH. apply orb_true_r.
Qed.

Lemma occurs_nowhere (p v : text) :
  (forall t1 t2, v = t1 ++ t2 -> starts_with ic p t2 = false) ->
  occurs ic p v = false.
Proof.
  induction v as [|c v IH]; intros H.
  - cbn [occurs]. now rewrite (H [] [] eq_refl).
  - cbn [occurs]. rewrite (H [] (c :: v) eq_refl). cbn [orb].
    apply IH. intros t1 t2 E. apply (H (c :: t1) t2). now rewrite E.
Qed.

End Inversion.

(** Whatever a search returns is an attempt that succeeded at some
    iterator of the text searched. *)
Lemma regex_search_inv (re : basic_regex) (s : iterator) (m : match_results) :
  regex_search re s = Some m ->
  exists a t g e,
    s = a ++ t /\ m = {| first := t; second := e |} :: g
    /\ exec (icase re) (pattern re) t initial = Some (g, e).
Proof.
  induction s as [|c s IH]; simpl.
  - destruct (exec (icase re) (pattern re) [] initial) as [[g e]|] eqn:E;
      [|discriminate].
    intros H. injection H as <-. now exists [], [], g, e.
  - destruct (exec (icase re) (pattern re) (c :: s) initial) as [[g e]|] eqn:E.
    + intros H. injection H as <-. now exists [], (c :: s), g, e.
    + intros H. destruct (IH H) as (a & t & g & e & -> & Hm & Hexec).
      now exists (c :: a), t, g, e.
Qed.

(** A successful attempt of the link pattern: the text begins with <a,
    contains href= further on, and the group is a non-empty run of
    characters other than quotes, followed by a quote at which the match
    ends. *)
Lemma link_attempt_inv (s : iterator) (st : mstate) g e :
  exec true (pattern linkRegex) s st = Some (g, e) ->
  exists x v q,
    s = x ++ v ++ q :: e
    /\ g = closed st ++ [{| first := v ++ q :: e; second := q :: e |}]
    /\ v <> []
    /\ forallb (atom_matches true (Bracket true [dquote; squote])) v = true
    /\ is_quote q = true
    /\ starts_with true "<a" s = true
    /\ occurs true "href=" s = true.
Proof.
  change (pattern linkRegex)
    with (lit "<a"
              ++ Term (Bracket true [">"%char]) Star
              :: lit "href="
              ++ [Term (Bracket false [dquote; squote]) Once;
                  GroupBegin;
                  Term (Bracket true [dquote; squote]) Plus;
                  GroupEnd;
                  Term (Bracket false [dquote; squote]) Once]).
  intros H.
  apply exec_lit_inv in H as (x1 & s1 & -> & Hstart & H). cbn [exec] in H.
  apply greedy_inv in H as (x2 & s2 & -> & _ & H).
  pose proof H as Hhref.
  apply exec_lit_inv in H as (x3 & s3 & -> & Hh & H). cbn [exec] in H.
  apply one_inv in H as (q1 & s4 & -> & _ & H).
  apply one_inv in H as (c & s5 & -> & Hc & H).
  apply greedy_inv in H as (x5 & s6 & -> & Hx5 & H).
  apply one_inv in H as (q & e' & -> & Hq & H).
  cbn [closed opened] in H. injection H as <- <-.
  exists (x1 ++ x2 ++ x3 ++ [q1]), (c :: x5), q.
  rewrite bracket_quote in Hq. cbn [xorb] in Hq.
  repeat split.
  - repeat (rewrite <- app_assoc; cbn [app]). reflexivity.
  - discriminate.
  - cbn [forallb]. now rewrite Hc, Hx5.
  - exact Hq.
  - exact Hstart.
  - rewrite app_assoc. now apply occurs_behind.
Qed.

(** A successful attempt of the button pattern: the group is a run of
    characters other than line breaks in which the closing tag starts
    nowhere, and the closing tag follows it. *)
Lemma button_attempt_inv (s : iterator) (st : mstate) g e :
  exec true (pattern buttonRegex) s st = Some (g, e) ->
  exists x v close,
    s = x ++ v ++ close ++ e
    /\ g = closed st ++ [{| first := v ++ close ++ e; second := close ++ e |}]
    /\ forallb (fun c => negb (is_line_break c)) v = true
    /\ occurs true "</button>" v = false
    /\ starts_with true "</button>" (close ++ e) = true
    /\ starts_with true "<button" s = true.
Proof.
  change (pattern buttonRegex)
    with (lit "<button"
              ++ Term (Bracket true [">"%char]) Star
              :: lit ">"
              ++ [GroupBegin; Term Any LazyStar; GroupEnd]
              ++ lit "</button>" ++ []).
  intros H.
  apply exec_lit_inv in H as (x1 & s1 & -> & Hstart & H). cbn [exec] in H.
  apply greedy_inv in H as (x2 & s2 & -> & _ & H).
  apply exec_lit_inv in H as (x3 & s3 & -> & _ & H). cbn [app exec] in H.
  apply lazy_inv in H as (v & s4 & -> & Hv & H & Hnone).
  cbn [closed opened] in *.
  apply exec_lit_inv in H as (close & e' & -> & Hclose & H).
  cbn [exec closed] in H. injection H as <- <-.
  exists (x1 ++ x2 ++ x3), v, close. repeat split.
  - now repeat rewrite <- app_assoc.
  - apply forallb_forall. intros c Hc. rewrite forallb_forall in Hv.
    rewrite <- any_matches. exact (Hv c Hc).
  - apply occurs_nowhere. intros t1 [|c t2] E; [reflexivity|].
    specialize (Hnone t1 c t2 E).
    destruct (starts_with true "</button>" (c :: t2)) eqn:Es; [|reflexivity].
    apply starts_with_extend with (s := close ++ e') in Es.
    rewrite exec_lit in Hnone. cbn [app] in Es. rewrite Es in Hnone.
    discriminate.
  - exact Hclose.
  - exact Hstart.
Qed.

Lemma occurs_later (ic : bool) (p a t : text) :
  occurs ic p t = true -> occurs ic p (a ++ t) = true.
Proof.
  intros H. induction a as [|c a IH]; cbn [app]; [exact H|].
  cbn [occurs]. rewrite IH. apply orb_true_r.
Qed.

Lemma quote_free (v : text) :
  forallb (atom_matches true (Bracket true [dquote; squote])) v = true ->
  lacks dquote v = true /\ lacks squote v = true.
Proof.
  unfold lacks. rewrite !forallb_forall. intros H.
  split; intros c Hc; specialize (H c Hc); rewrite bracket_quote in H;
    unfold is_quote in H; cbn [xorb] in H;
    apply negb_true_iff, orb_false_iff in H as [H1 H2];
    now apply negb_true_iff.
Qed.

(** What every successful search for a link has found. *)
Lemma link_search_inv (s : iterator) (m : match_results) :
  regex_search linkRegex s = Some m ->
  exists a v q,
    s = a ++ v ++ q :: first (suffix m)
    /\ str (at_ m 1) = v
    /\ v <> [] /\ lacks dquote v = true /\ lacks squote v = true
    /\ is_quote q = true
    /\ occurs true "<a" s = true /\ occurs true "href=" s = true.
Proof.
  intros H. apply regex_search_inv in H as (a & t & g & e & -> & -> & H).
  cbn [icase linkRegex] in H.
  apply link_attempt_inv in H
    as (x & v & q & -> & -> & Hne & Hv & Hq & Hstart & Hhref).
  apply quote_free in Hv as [Hd Hs].
  exists (a ++ x), v, q. cbn [suffix at_ nth first second initial closed app].
  rewrite str_prefix. repeat split; auto.
  - now rewrite <- app_assoc.
  - now apply occurs_behind.
  - now apply occurs_later.
Qed.

(** What every successful search for a button has found. *)
Lemma button_search_inv (s : iterator) (m : match_results) :
  regex_search buttonRegex s = Some m ->
  exists a v close,
    s = a ++ v ++ close ++ first (suffix m)
    /\ str (at_ m 1) = v
    /\ forallb (fun c => negb (is_line_break c)) v = true
    /\ occurs true "</button>" v = false
    /\ occurs true "<button" s = true /\ occurs true "</button>" s = true.
Proof.
  intros H. apply regex_search_inv in H as (a & t & g & e & -> & -> & H).
  cbn [icase buttonRegex] in H.
  apply button_attempt_inv in H
    as (x & v & close & -> & -> & Hv & Hno & Hclose & Hstart).
  exists (a ++ x), v, close.
  cbn [suffix at_ nth first second initial closed app].
  rewrite str_prefix. repeat split; auto.
  - now rewrite <- app_assoc.
  - now apply occurs_behind.
  - rewrite !app_assoc. rewrite <- (app_assoc _ close e).
    now apply occurs_behind.
Qed.

Lemma linkRegex_cuts_piece : cuts_piece linkRegex.
Proof.
  intros s m H.
  apply link_search_inv in H as (a & v & q & E & -> & _).
  now exists a, [q].
Qed.

Lemma buttonRegex_cuts_piece : cuts_piece buttonRegex.
Proof.
  intros s m H.
  apply button_search_inv in H as (a & v & close & E & -> & _).
  now exists a, close.
Qed.

(** ** What the scan loop keeps *)

Lemma scan_forall (P : text -> Prop) (re : basic_regex) :
  (forall s m, regex_search re s = Some m -> P (str (at_ m 1))) ->
  forall fuel s found r,
    scan fuel re s found = Some r -> Forall P found -> Forall P r.
Proof.
  intros HP fuel. induction fuel as [|fuel IH]; intros s found r;
    [discriminate|].
  cbn [scan]. destruct (regex_search re s) as [m|] eqn:E.
  - intros H Hf. apply (IH _ _ _ H). apply Forall_app. split; [exact Hf|].
    constructor; [now apply (HP s) | constructor].
  - intros H Hf. now injection H as <-.
Qed.

Lemma in_order_behind (b s : text) (ls : list text) :
  in_order s ls -> in_order (b ++ s) ls.
Proof.
  intros H. destruct H as [s | a l c ls H]; [constructor|].
  rewrite app_assoc. now constructor.
Qed.

Lemma scan_in_order (re : basic_regex) :
  cuts_piece re ->
  forall fuel s found r,
    scan fuel re s found = Some r ->
    exists ls, r = found ++ ls /\ in_order s ls.
Proof.
  intros Hre fuel. induction fuel as [|fuel IH]; intros s found r;
    [discriminate|].
  cbn [scan]. destruct (regex_search re s) as [m|] eqn:E.
  - intros H. destruct (IH _ _ _ H) as (ls & -> & Hls).
    destruct (Hre s m E) as (a & b & Es).
    exists (str (at_ m 1) :: ls). split; [now rewrite <- app_assoc|].
    rewrite Es. constructor. now apply in_order_behind.
  - intros H. injection H as <-. exists []. split; [now rewrite app_nil_r|].
    constructor.
Qed.

Lemma extract_parts (html : text) (r : ExtractionResult) :
  extract html = Some r ->
  scan_all linkRegex html = Some (links r)
  /\ scan_all buttonRegex html = Some (buttons r).
Proof.
  unfold extract.
  destruct (scan_all linkRegex html) as [ls|]; [|discriminate].
  destruct (scan_all buttonRegex html) as [bs|]; [|discriminate].
  intros H. injection H as <-. now split.
Qed.

(** ** Properties of every extraction *)

Unset Implicit Arguments.

(** X3: whatever the body, no extracted link is empty and none contains
    a single or a double quote: the group of the link pattern is one or
    more characters other than quotes. *)
Theorem links_never_empty_nor_quoted (html : text) :
  exists r,
    extract html = Some r
    /\ Forall (fun l => l <> [] /\ lacks dquote l = true
                        /\ lacks squote l = true)
              (links r).
Proof.
  destruct (extract_total html) as [r Hr]. exists r. split; [exact Hr|].
  apply extract_parts in Hr as [Hl _].
  unfold scan_all in Hl.
  refine (@scan_forall _ linkRegex _ _ _ _ _ Hl (Forall_nil _)).
  intros s m H.
  apply link_search_inv in H as (a & v & q & _ & -> & Hne & Hd & Hs & _).
  auto.
Qed.

(** X4: whatever the body, no extracted button label contains a line
    break (LF or CR), and the closing tag occurs in no label, in any
    letter case: a label always ends at the nearest closing tag. *)
Theorem labels_end_at_nearest_close (html : text) :
  exists r,
    extract html = Some r
    /\ Forall (fun b => forallb (fun c => negb (is_line_break c)) b = true
                        /\ occurs true "</button>" b = false)
              (buttons r).
Proof.
  destruct (extract_total html) as [r Hr]. exists r. split; [exact Hr|].
  apply extract_parts in Hr as [_ Hb].
  unfold scan_all in Hb.
  refine (@scan_forall _ buttonRegex _ _ _ _ _ Hb (Forall_nil _)).
  intros s m H.
  apply button_search_inv in H as (a & v & close & _ & -> & Hv & Hno & _).
  auto.
Qed.

(** X5: whatever the body, the links are pieces of the body, copied
    character for character, that do not overlap and come in the order in
    which they lie in the body; and so are the button labels. *)
Theorem entries_lie_in_body_in_order (html : text) :
  exists r,
    extract html = Some r
    /\ in_order html (links r) /\ in_order html (buttons r).
Proof.
  destruct (extract_total html) as [r Hr]. exists r. split; [exact Hr|].
  apply extract_parts in Hr as [Hl Hb].
  unfold scan_all in Hl, Hb.
  destruct (@scan_in_order linkRegex linkRegex_cuts_piece _ _ _ _ Hl)
    as (ls & El & Hls).
  destruct (@scan_in_order buttonRegex buttonRegex_cuts_piece _ _ _ _ Hb)
    as (bs & Eb & Hbs).
  cbn [app] in El, Eb. rewrite El, Eb. now split.
Qed.

(** X6: a body in which <a or href= does not occur, in any letter case,
    has no links; a body in which <button or </button> does not occur
    has no button labels. *)
Theorem no_tag_no_entry :
  (forall html : text,
      occurs true "<a" html = false \/ occurs true "href=" html = false ->
      option_map links (extract html) = Some [])
  /\ (forall html : text,
         occurs true "<button" html = false
         \/ occurs true "</button>" html = false ->
         option_map buttons (extract html) = Some []).
Proof.
  split; intros html Hno.
  - apply extract_links. unfold scan_all. apply scan_done.
    destruct (regex_search linkRegex html) as [m|] eqn:E; [|reflexivity].
    apply link_search_inv in E as (a & v & q & _ & _ & _ & _ & _ & _ & H1 & H2).
    destruct Hno; congruence.
  - apply extract_buttons. unfold scan_all. apply scan_done.
    destruct (regex_search buttonRegex html) as [m|] eqn:E; [|reflexivity].
    apply button_search_inv in E as (a & v & close & _ & _ & _ & _ & H1 & H2).
    destruct Hno; congruence.
Qed.

Lemma no_tag_no_entry_witness :
  option_map links
    (extract "<p>see <b>about</b> or <area shape='rect'> at /a</p>")
  = Some []
  /\ option_map buttons
       (extract "<Button class='x'>never closed <a href='/x'>x</a>")
     = Some [].
Proof.
  split.
  - apply (proj1 no_tag_no_entry). right. reflexivity.
  - apply (proj2 no_tag_no_entry). right. reflexivity.
Defined.

(** ** The fetch *)

Lemma received_from (chunks : list text) (buffer : text) :
  fold_left
    (fun buffer chunk =>
       fst (WriteCallback chunk 1 (List.length chunk) buffer))
    chunks buffer
  = buffer ++ List.concat chunks.
Proof.
  revert buffer. induction chunks as [|c chunks IH]; intros buffer.
  - cbn. now rewrite app_nil_r.
  - cbn [fold_left List.concat]. rewrite IH. unfold WriteCallback.
    cbn [fst]. rewrite Nat.mul_1_l, firstn_all. now rewrite <- app_assoc.
Qed.

(** X1: the write callback appends the bytes libcurl hands it to the
    buffer and reports all of them as taken; the body is therefore the
    concatenation of the chunks in the order of delivery, and a run's
    outcome depends only on that concatenation and on the result code,
    not on where libcurl cut the chunks. *)
Theorem body_is_concatenation_of_chunks :
  (forall (contents : text) (size nmemb : nat) (buffer : text),
      List.length contents = size * nmemb ->
      WriteCallback contents size nmemb buffer
      = (buffer ++ contents, List.length contents))
  /\ (forall chunks : list text, received chunks = List.concat chunks)
  /\ (forall (init : bool) (strerror : CURLcode -> text)
             (perform perform' : text -> list text * CURLcode)
             (argv : list text),
         (forall url,
             List.concat (fst (perform url)) = List.concat (fst (perform' url))
             /\ snd (perform url) = snd (perform' url)) ->
         main {| curl_easy_init := init; curl_easy_perform := perform;
                 curl_easy_strerror := strerror |} argv
         = main {| curl_easy_init := init; curl_easy_perform := perform';
                   curl_easy_strerror := strerror |} argv).
Proof.
  split; [|split].
  - intros contents size nmemb buffer H. unfold WriteCallback.
    now rewrite <- H, firstn_all.
  - intros chunks. unfold received. apply received_from.
  - intros init strerror perform perform' argv H. unfold main.
    cbn [curl_easy_init curl_easy_perform curl_easy_strerror].
    destruct (List.length argv <? 2)%nat; [reflexivity|].
    destruct init; cbn [negb]; [|reflexivity].
    destruct (H (nth 1 argv [])) as [Hbody Hcode].
    destruct (perform (nth 1 argv [])) as [chunks res].
    destruct (perform' (nth 1 argv [])) as [chunks' res'].
    cbn [fst snd] in Hbody, Hcode. subst res'.
    unfold received. rewrite !received_from. cbn [app]. now rewrite Hbody.
Qed.

Lemma body_is_concatenation_of_chunks_witness :
  main {| curl_easy_init := true;
          curl_easy_perform :=
            fun _ => ([chars "<a hr"; chars "ef='/x'>x</a><but";
                       chars "ton>Go</button>"], CURLE_OK);
          curl_easy_strerror := fun _ => [] |}
       [chars "website_mapper"; chars "http://example.org/"]
  = main {| curl_easy_init := true;
            curl_easy_perform :=
              fun _ => ([chars "<a href='/x'>x</a><button>Go</button>"],
                        CURLE_OK);
            curl_easy_strerror := fun _ => [] |}
         [chars "website_mapper"; chars "http://example.org/"].
Proof.
  apply (proj2 (proj2 body_is_concatenation_of_chunks)).
  intros url. split; reflexivity.
Defined.

(** ** The run of the mapper as a whole *)

(** X2: every run of the mapper on a bounded call stack ends: it
    returns or it is killed inside the scans, and it can be killed only
    after a URL argument was given, libcurl returned a handle and the
    transfer ended with [CURLE_OK].  A run that returns is a run of
    [main] and returns 0 or 1; 0 exactly when a URL argument was given,
    libcurl returned a handle and the transfer ended with [CURLE_OK].
    Such a run hands at most one URL to libcurl, namely [argv[1]], and
    does so exactly when there is an argument and a handle.  A run that
    returns 0 writes nothing to the error channel; a run that returns 1
    writes a diagnostic there and nothing to normal output. *)
Theorem mapper_run_outcomes (frames : nat) (curl : libcurl)
        (argv : list text) :
  exists o : Stack.run (process * Z),
    Stack.main_on frames curl argv = Some o
    /\ match o with
       | Stack.Killed =>
           2 <= List.length argv /\ curl_easy_init curl = true
           /\ snd (curl_easy_perform curl (nth 1 argv [])) = CURLE_OK
       | Stack.Returned (p, code) =>
           main curl argv = Some (p, code)
           /\ (code = 0%Z \/ code = 1%Z)
           /\ (code = 0%Z <->
               2 <= List.length argv /\ curl_easy_init curl = true
               /\ snd (curl_easy_perform curl (nth 1 argv [])) = CURLE_OK)
           /\ requests p
              = (if (2 <=? List.length argv)%nat && curl_easy_init curl
                 then [nth 1 argv []] else [])
           /\ (code = 0%Z -> cerr p = [])
           /\ (code = 1%Z -> cout p = [] /\ cerr p <> [])
       end.
Proof.
  pose proof (@main_agrees frames curl argv) as Hmain.
  unfold Stack.main_on in *.
  destruct (Nat.ltb_spec (List.length argv) 2) as [Hlt | Hge].
  - eexists. split; [reflexivity|]. cbv beta iota.
    split; [now apply Hmain|].
    destruct (Nat.leb_spec 2 (List.length argv)) as [H | _]; [lia|].
    repeat split; auto; try discriminate;
      try (intros (H1 & H2 & H3)); try lia.
  - destruct (Nat.leb_spec 2 (List.length argv)) as [_ | H]; [|lia].
    destruct (curl_easy_init curl) eqn:Hinit; cbn [negb andb] in *.
    + destruct (curl_easy_perform curl (nth 1 argv [])) as [chunks res].
      cbn [snd]. destruct (Nat.eqb_spec res CURLE_OK) as [Hres | Hres];
        cbn [negb] in *.
      * subst res.
        destruct (extract_on_total frames (received chunks)) as [[|r] E];
          rewrite E in *.
        -- eexists. split; [reflexivity|]. cbv beta iota. auto.
        -- eexists. split; [reflexivity|]. cbv beta iota.
           split; [now apply Hmain|].
           destruct (print_result_other r (request (nth 1 argv []) start))
             as [Hcerr Hreq].
           repeat split; auto; try discriminate.
      * eexists. split; [reflexivity|]. cbv beta iota.
        split; [now apply Hmain|].
        repeat split; auto; try discriminate;
          try (intros (H1 & H2 & H3)); try contradiction.
    + eexists. split; [reflexivity|]. cbv beta iota.
      split; [now apply Hmain|].
      repeat split; auto; try discriminate;
        try (intros (H1 & H2 & H3)); try discriminate.
Qed.

(** When libcurl returns no handle the mapper writes Failed to
    initialize libcurl to the error channel and ends with 1, without
    handing any URL to libcurl and without normal output. *)
Theorem init_failure (curl : libcurl) (argv : list text) :
  2 <= List.length argv ->
  curl_easy_init curl = false ->
  main curl argv
  = Some ({| cout := [];
             cerr := chars "Failed to initialize libcurl" ++ [LF];
             requests := [] |}, 1%Z).
Proof.
  intros Hargc Hinit. unfold main.
  destruct (Nat.ltb_spec (List.length argv) 2) as [H | _]; [lia|].
  now rewrite Hinit.
Qed.

Lemma init_failure_witness :
  main {| curl_easy_init := false;
          curl_easy_perform := fun _ => ([chars "<a href='/x'>"], CURLE_OK);
          curl_easy_strerror := fun _ => [] |}
       [chars "website_mapper"; chars "http://example.org/"]
  = Some ({| cout := [];
             cerr := chars "Failed to initialize libcurl" ++ [LF];
             requests := [] |}, 1%Z).
Proof.
  apply (init_failure
           {| curl_easy_init := false;
              curl_easy_perform :=
                fun _ => ([chars "<a href='/x'>"], CURLE_OK);
              curl_easy_strerror := fun _ => [] |}
           [chars "website_mapper"; chars "http://example.org/"]);
    [simpl; lia | reflexivity].
Defined.

(** ** The command lines of the invokers *)

Set Implicit Arguments.

Lemma indexed_args_cons (p : text) (rest : list text) :
  indexed_args (p :: rest) = combine (seq 1 (List.length rest)) rest.
Proof.
  unfold indexed_args. cbn [List.length tl].
  now rewrite Nat.sub_succ, Nat.sub_0_r.
Qed.

Lemma join_concat (sep x : text) (rest : list text) :
  join sep (x :: rest) = x ++ List.concat (map (fun y => sep ++ y) rest).
Proof.
  revert x. induction rest as [|y rest IH]; intros x.
  - cbn. now rewrite app_nil_r.
  - cbn [join]. change (match rest with
                        | [] => y
                        | _ :: _ => y ++ sep ++ join sep rest
                        end) with (join sep (y :: rest)).
    rewrite IH. cbn [map List.concat]. now rewrite <- app_assoc.
Qed.

Lemma bridge_fold (n : nat) (rest : list text) (cmd : text) :
  fold_left (fun cmd a => (cmd ++ chars " ") ++ snd a)
            (combine (seq n (List.length rest)) rest) cmd
  = cmd ++ List.concat (map (fun y => chars " " ++ y) rest).
Proof.
  revert n cmd. induction rest as [|y rest IH]; intros n cmd.
  - cbn. now rewrite app_nil_r.
  - cbn [List.length seq combine fold_left snd map List.concat].
    rewrite IH. now repeat rewrite <- app_assoc.
Qed.

Lemma runner_fold (n : nat) (rest : list text) (cmd : text) :
  2 <= n ->
  fold_left
    (fun cmd a =>
       (if (1 <? fst a)%nat then cmd ++ chars " " else cmd) ++ snd a)
    (combine (seq n (List.length rest)) rest) cmd
  = cmd ++ List.concat (map (fun y => chars " " ++ y) rest).
Proof.
  revert n cmd. induction rest as [|y rest IH]; intros n cmd Hn.
  - cbn. now rewrite app_nil_r.
  - cbn [List.length seq combine fold_left fst snd map List.concat].
    destruct (Nat.ltb_spec 1 n) as [_ | H]; [|lia].
    rewrite IH by lia. now repeat rewrite <- app_assoc.
Qed.

Lemma bridge_command_form (argv : list text) :
  CliBridge.command argv
  = chars "python3 enhanced_based_god_cli.py"
          ++ List.concat (map (fun y => chars " " ++ y) (tl argv)).
Proof.
  unfold CliBridge.command. destruct argv as [|p rest]; [reflexivity|].
  rewrite indexed_args_cons. apply bridge_fold.
Qed.

Lemma runner_command_form (argv : list text) :
  CliRunner.command argv = join " " (tl argv).
Proof.
  unfold CliRunner.command. destruct argv as [|p rest]; [reflexivity|].
  rewrite indexed_args_cons. cbn [tl].
  destruct rest as [|a rest]; [reflexivity|].
  cbn [List.length seq combine fold_left fst snd Nat.ltb Nat.leb app].
  rewrite runner_fold by lia. symmetry. apply join_concat.
Qed.

Lemma concat_split_word (xs : list text) (a b : text) (ys : list text) :
  List.concat (map (fun y => chars " " ++ y) (xs ++ [a ++ chars " " ++ b] ++ ys))
  = List.concat (map (fun y => chars " " ++ y) (xs ++ [a; b] ++ ys)).
Proof.
  rewrite !map_app, !concat_app. f_equal. cbn [map List.concat app].
  now repeat rewrite <- app_assoc.
Qed.

Unset Implicit Arguments.

(** X7: the command line [cli_bridge] runs is the fixed script call
    followed by every argument, each with one blank in front, with no
    quoting: an argument that contains a blank gives the same command
    line as the two arguments it is made of. *)
Theorem bridge_command_is_blank_joined :
  (forall argv : list text,
      CliBridge.command argv
      = chars "python3 enhanced_based_god_cli.py"
              ++ List.concat (map (fun y => chars " " ++ y) (tl argv)))
  /\ (forall (p : text) (xs : list text) (a b : text) (ys : list text),
         CliBridge.command (p :: xs ++ [a ++ chars " " ++ b] ++ ys)
         = CliBridge.command (p :: xs ++ [a; b] ++ ys)).
Proof.
  split; [exact bridge_command_form|].
  intros p xs a b ys. rewrite !bridge_command_form. cbn [tl].
  now rewrite concat_split_word.
Qed.

(** X8: the command line [cli_runner] runs is its arguments joined by
    single blanks, with no blank in front of the first one and no
    quoting; an argument that contains a blank gives the same command
    line as the two arguments it is made of; and for the same arguments
    [cli_bridge] runs the script call, a blank, and that command line. *)
Theorem runner_command_is_blank_joined :
  (forall argv : list text, CliRunner.command argv = join " " (tl argv))
  /\ (forall (p : text) (xs : list text) (a b : text) (ys : list text),
         CliRunner.command (p :: xs ++ [a ++ chars " " ++ b] ++ ys)
         = CliRunner.command (p :: xs ++ [a; b] ++ ys))
  /\ (forall (p a : text) (rest : list text),
         CliBridge.command (p :: a :: rest)
         = chars "python3 enhanced_based_god_cli.py" ++ chars " "
                 ++ CliRunner.command (p :: a :: rest)).
Proof.
  split; [exact runner_command_form|]. split.
  - intros p xs a b ys. rewrite !runner_command_form. cbn [tl].
    destruct xs as [|x xs].
    + cbn [app]. rewrite !join_concat. cbn [map List.concat].
      now repeat rewrite <- app_assoc.
    + cbn [app]. rewrite !join_concat. f_equal. apply concat_split_word.
  - intros p a rest. rewrite bridge_command_form, runner_command_form.
    cbn [tl]. rewrite join_concat. cbn [map List.concat].
    now repeat rewrite <- app_assoc.
Qed.

(** ** What [cli_bridge] echoes *)

Set Implicit Arguments.

Lemma fgets_chars_split (room : nat) (s : text) :
  fst (CliBridge.fgets_chars room s) ++ snd (CliBridge.fgets_chars room s) = s.
Proof.
  revert s. induction room as [|room IH]; intros s; [reflexivity|].
  destruct s as [|c s]; [reflexivity|]. cbn [CliBridge.fgets_chars].
  destruct (Ascii.eqb c LF); [reflexivity|].
  specialize (IH s). destruct (CliBridge.fgets_chars room s) as [l r].
  cbn [fst snd app] in *. now rewrite IH.
Qed.

Lemma fgets_split (s buffer rest : text) :
  CliBridge.fgets 256 s = Some (buffer, rest) -> buffer ++ rest = s.
Proof.
  destruct s as [|c s]; [discriminate|]. unfold CliBridge.fgets.
  pose proof (fgets_chars_split (256 - 1) (c :: s)) as H.
  destruct (CliBridge.fgets_chars (256 - 1) (c :: s)) as [l r].
  intros E. injection E as <- <-. exact H.
Qed.

Lemma c_str_lacks (b : text) : lacks NUL b = true -> CliBridge.c_str b = b.
Proof.
  induction b as [|c b IH]; [reflexivity|].
  rewrite lacks_cons. intros H. apply andb_true_iff in H as [Hc Hb].
  cbn [CliBridge.c_str]. apply negb_true_iff in Hc. rewrite Hc.
  now rewrite IH.
Qed.

Lemma c_str_cut (a b : text) :
  lacks NUL a = true -> CliBridge.c_str (a ++ NUL :: b) = a.
Proof.
  induction a as [|c a IH]; [reflexivity|].
  rewrite lacks_cons. intros H. apply andb_true_iff in H as [Hc Ha].
  cbn [app CliBridge.c_str]. apply negb_true_iff in Hc. rewrite Hc.
  now rewrite IH.
Qed.

(** The read loop returns a stream without NUL as it is. *)
Lemma read_all_echo (fuel : nat) (s result : text) :
  List.length s < fuel -> lacks NUL s = true ->
  CliBridge.read_all fuel s result = Some (result ++ s).
Proof.
  revert s result. induction fuel as [|fuel IH]; intros s result Hlt Hs;
    [lia|].
  cbn [CliBridge.read_all].
  destruct (CliBridge.fgets 256 s) as [[buffer rest]|] eqn:E.
  - pose proof (fgets_progress _ E) as Hp.
    pose proof (fgets_split _ E) as Hsplit.
    rewrite <- Hsplit, lacks_app in Hs. apply andb_true_iff in Hs as [Hb Hr].
    rewrite IH by (exact Hr || lia). rewrite c_str_lacks by exact Hb.
    now rewrite <- app_assoc, Hsplit.
  - destruct s; [now rewrite app_nil_r | discriminate].
Qed.

(** A line shorter than the buffer is read by one [fgets], newline
    included. *)
Lemma fgets_chars_line (room : nat) (x rest : text) :
  lacks LF x = true -> List.length x < room ->
  CliBridge.fgets_chars room (x ++ LF :: rest) = (x ++ [LF], rest).
Proof.
  revert x. induction room as [|room IH]; intros x Hx Hlen; [lia|].
  destruct x as [|c x]; cbn [app CliBridge.fgets_chars].
  - reflexivity.
  - rewrite lacks_cons in Hx. apply andb_true_iff in Hx as [Hc Hx].
    apply negb_true_iff in Hc. rewrite Hc.
    cbn [List.length] in Hlen. rewrite IH by (exact Hx || lia). reflexivity.
Qed.

Unset Implicit Arguments.

(** X9: when the pipe could be opened and the subprocess writes no NUL
    character, [cli_bridge] writes to its normal output exactly what the
    subprocess wrote, whatever the lengths of its lines, writes nothing to
    the error channel, and returns 0. *)
Theorem bridge_echoes_output (popen : CliBridge.shell) (argv : list text)
        (pipe : CliBridge.FILE) :
  2 <= List.length argv ->
  popen (CliBridge.command argv) = Some pipe ->
  lacks NUL (CliBridge.stream pipe) = true ->
  CliBridge.main popen argv
  = Some ({| out := CliBridge.stream pipe; err := [];
             commands := [CliBridge.command argv] |}, 0%Z).
Proof.
  intros Hargc Hpipe Hnul. unfold CliBridge.main.
  destruct (Nat.ltb_spec (List.length argv) 2) as [H | _]; [lia|].
  rewrite Hpipe. rewrite read_all_echo by (exact Hnul || lia).
  reflexivity.
Qed.

Lemma bridge_echoes_output_witness :
  CliBridge.main
    (fun _ => Some {| CliBridge.stream :=
                        chars "first line" ++ LF :: repeat "x"%char 600
                              ++ LF :: chars "last, no newline";
                      CliBridge.status := 0 |})
    [chars "cli_bridge"; chars "--help"]
  = Some ({| out := chars "first line" ++ LF :: repeat "x"%char 600
                          ++ LF :: chars "last, no newline";
             err := [];
             commands := [CliBridge.command
                            [chars "cli_bridge"; chars "--help"]] |}, 0%Z).
Proof.
  apply (bridge_echoes_output
           (fun _ => Some {| CliBridge.stream :=
                               chars "first line" ++ LF :: repeat "x"%char 600
                                     ++ LF :: chars "last, no newline";
                             CliBridge.status := 0 |})
           [chars "cli_bridge"; chars "--help"]
           {| CliBridge.stream :=
                chars "first line" ++ LF :: repeat "x"%char 600
                      ++ LF :: chars "last, no newline";
              CliBridge.status := 0 |});
    [simpl; lia | reflexivity | vm_compute; reflexivity].
Defined.

(** X10: a NUL character in the output of the subprocess makes
    [cli_bridge] lose text.  When a line shorter than the read buffer
    contains a NUL, the rest of that line and its newline are dropped:
    what was before the NUL is followed directly by the next line. *)
Theorem bridge_drops_after_nul (popen : CliBridge.shell) (argv : list text)
        (pipe : CliBridge.FILE) (a b rest : text) :
  2 <= List.length argv ->
  popen (CliBridge.command argv) = Some pipe ->
  CliBridge.stream pipe = a ++ NUL :: b ++ LF :: rest ->
  lacks NUL a = true -> lacks LF a = true -> lacks LF b = true ->
  List.length a + List.length b + 2 <= 255 ->
  lacks NUL rest = true ->
  CliBridge.main popen argv
  = Some ({| out := a ++ rest; err := [];
             commands := [CliBridge.command argv] |}, 0%Z).
Proof.
  intros Hargc Hpipe Hstream Ha Hlf Hb Hlen Hrest. unfold CliBridge.main.
  destruct (Nat.ltb_spec (List.length argv) 2) as [H | _]; [lia|].
  rewrite Hpipe, Hstream. cbn [CliBridge.read_all].
  assert (Hfgets :
            CliBridge.fgets 256 (a ++ NUL :: b ++ LF :: rest)
            = Some ((a ++ NUL :: b) ++ [LF], rest)).
  { unfold CliBridge.fgets. change (256 - 1) with 255.
    replace (a ++ NUL :: b ++ LF :: rest)
      with ((a ++ NUL :: b) ++ LF :: rest)
      by (now rewrite <- app_assoc).
    rewrite fgets_chars_line.
    - destruct a; reflexivity.
    - rewrite lacks_app, lacks_cons, Hlf, Hb. reflexivity.
    - rewrite length_app. cbn [List.length]. lia. }
  rewrite Hfgets. rewrite <- app_assoc. cbn [app].
  rewrite c_str_cut by exact Ha.
  rewrite read_all_echo.
  - reflexivity.
  - rewrite !length_app. cbn [List.length]. rewrite length_app.
    cbn [List.length]. lia.
  - exact Hrest.
Qed.

Lemma bridge_drops_after_nul_witness :
  CliBridge.main
    (fun _ => Some {| CliBridge.stream :=
                        chars "size=" ++ NUL :: chars "42 bytes"
                              ++ LF :: chars "done" ++ [LF];
                      CliBridge.status := 0 |})
    [chars "cli_bridge"; chars "stat"]
  = Some ({| out := chars "size=" ++ chars "done" ++ [LF]; err := [];
             commands := [CliBridge.command [chars "cli_bridge"; chars "stat"]]
          |}, 0%Z).
Proof.
  apply (bridge_drops_after_nul
           (fun _ => Some {| CliBridge.stream :=
                               chars "size=" ++ NUL :: chars "42 bytes"
                                     ++ LF :: chars "done" ++ [LF];
                             CliBridge.status := 0 |})
           [chars "cli_bridge"; chars "stat"]
           {| CliBridge.stream :=
                chars "size=" ++ NUL :: chars "42 bytes"
                      ++ LF :: chars "done" ++ [LF];
              CliBridge.status := 0 |}
           (chars "size=") (chars "42 bytes") (chars "done" ++ [LF]));
    try reflexivity; simpl; lia.
Defined.

(** ** The runs of the invokers as a whole *)

(** X11: every run of [cli_bridge] ends, with 0 or 1.  It ends with 0
    exactly when an argument was given and [popen] returned a stream.  It
    hands one command line to the shell when there is an argument and
    none otherwise.  A run that ends with 1 writes a diagnostic to the
    error channel and nothing to normal output; a run that ends with 0
    writes nothing to the error channel. *)
Theorem bridge_run_summary (popen : CliBridge.shell) (argv : list text) :
  exists (p : invoker) (code : Z),
    CliBridge.main popen argv = Some (p, code)
    /\ (code = 0%Z \/ code = 1%Z)
    /\ (code = 0%Z <->
        2 <= List.length argv /\ popen (CliBridge.command argv) <> None)
    /\ commands p
       = (if (2 <=? List.length argv)%nat then [CliBridge.command argv]
          else [])
    /\ (code = 0%Z -> err p = [])
    /\ (code = 1%Z -> out p = [] /\ err p <> []).
Proof.
  unfold CliBridge.main.
  destruct (Nat.ltb_spec (List.length argv) 2) as [Hlt | Hge].
  - eexists _, _. split; [reflexivity|].
    destruct (Nat.leb_spec 2 (List.length argv)) as [H | _]; [lia|].
    repeat split; auto; try discriminate; try (intros (H1 & H2)); try lia.
  - destruct (Nat.leb_spec 2 (List.length argv)) as [_ | H]; [|lia].
    destruct (popen (CliBridge.command argv)) as [pipe|] eqn:Hpipe.
    + destruct (@read_all_total (S (List.length (CliBridge.stream pipe)))
                                (CliBridge.stream pipe) [])
        as [result ->]; [lia|].
      eexists _, _. split; [reflexivity|].
      repeat split; auto; try discriminate.
    + eexists _, _. split; [reflexivity|].
      repeat split; auto; try discriminate;
        try (intros (H1 & H2)); try congruence.
Qed.

(** A run of [cli_runner] with an argument hands exactly one command
    line to [std::system] and returns the value [std::system] returned;
    it writes nothing to normal output itself, and it writes to the error
    channel exactly when that value is not 0, namely the text Command
    failed with code, the value in decimal and a newline. *)
Theorem runner_run_summary (system : text -> Z) (argv : list text) :
  2 <= List.length argv ->
  let cmd := CliRunner.command argv in
  let p := fst (CliRunner.main system argv) in
  snd (CliRunner.main system argv) = system cmd
  /\ commands p = [cmd] /\ out p = []
  /\ (err p = [] <-> system cmd = 0%Z)
  /\ (system cmd <> 0%Z ->
      err p = chars "Command failed with code "
                    ++ CliRunner.decimal (system cmd) ++ [LF]).
Proof.
  intros Hargc cmd p. subst cmd p. unfold CliRunner.main.
  destruct (Nat.ltb_spec (List.length argv) 2) as [H | _]; [lia|].
  cbn [fst snd].
  destruct (Z.eqb_spec (system (CliRunner.command argv)) 0) as [E | E];
    cbn [negb].
  - repeat split; auto; try contradiction.
  - repeat split; auto; try discriminate; try contradiction.
Qed.

Lemma runner_run_summary_witness :
  snd (CliRunner.main (fun _ => 32512%Z)
                      [chars "cli_runner"; chars "no-such-tool"; chars "-v"])
  = 32512%Z
  /\ commands (fst (CliRunner.main (fun _ => 32512%Z)
                      [chars "cli_runner"; chars "no-such-tool"; chars "-v"]))
     = [chars "no-such-tool -v"]
  /\ out (fst (CliRunner.main (fun _ => 32512%Z)
                 [chars "cli_runner"; chars "no-such-tool"; chars "-v"]))
     = []
  /\ (err (fst (CliRunner.main (fun _ => 32512%Z)
                  [chars "cli_runner"; chars "no-such-tool"; chars "-v"]))
      = [] <-> 32512%Z = 0%Z)
  /\ (32512%Z <> 0%Z ->
      err (fst (CliRunner.main (fun _ => 32512%Z)
                  [chars "cli_runner"; chars "no-such-tool"; chars "-v"]))
      = chars "Command failed with code "
              ++ CliRunner.decimal 32512 ++ [LF]).
Proof.
  apply (runner_run_summary (fun _ => 32512%Z)
           [chars "cli_runner"; chars "no-such-tool"; chars "-v"]).
  simpl. lia.
Defined.

(** ** Letter case *)

Set Implicit Arguments.

Lemma tolower_idem (c : ascii) : tolower (tolower c) = tolower c.
Proof. destruct c as [[] [] [] [] [] [] [] []]; reflexivity. Qed.

Lemma atom_matches_lower (a : atom) (c : ascii) :
  atom_matches true a (tolower c) = atom_matches true a c.
Proof.
  destruct a as [x | | negated members]; cbn [atom_matches translate];
    now rewrite tolower_idem.
Qed.

Lemma one_folds (a : atom) (k : cont) : folds k -> folds (one true a k).
Proof.
  intros Hk [|c s] st; [reflexivity|].
  cbn [lower map one]. rewrite atom_matches_lower.
  destruct (atom_matches true a c); [exact (Hk s st) | reflexivity].
Qed.

Lemma greedy_folds (a : atom) (k : cont) : folds k -> folds (greedy true a k).
Proof.
  intros Hk s. induction s as [|c s IH]; intros st.
  - exact (Hk [] st).
  - cbn [lower map greedy]. rewrite atom_matches_lower.
    pose proof (Hk (c :: s) st) as Hhere. cbn [lower map] in Hhere.
    destruct (atom_matches true a c); [|exact Hhere].
    specialize (IH st). unfold lower in IH. rewrite IH.
    destruct (greedy true a k s st) as [[g e]|]; [reflexivity | exact Hhere].
Qed.

Lemma lazy_folds (a : atom) (k : cont) : folds k -> folds (lazy true a k).
Proof.
  intros Hk s. induction s as [|c s IH]; intros st.
  - pose proof (Hk [] st) as Hhere. cbn [lower map] in Hhere.
    cbn [lower map lazy]. rewrite Hhere.
    destruct (k [] st) as [[g e]|]; reflexivity.
  - pose proof (Hk (c :: s) st) as Hhere. cbn [lower map] in Hhere.
    cbn [lower map lazy]. rewrite Hhere, atom_matches_lower.
    destruct (k (c :: s) st) as [[g e]|]; [reflexivity|].
    cbn [lower_outcome].
    destruct (atom_matches true a c); [apply IH | reflexivity].
Qed.

Lemma exec_folds (p : list node) : folds (exec true p).
Proof.
  induction p as [|n p IH].
  - intros s st. reflexivity.
  - destruct n as [a [] | |]; cbn [exec].
    + now apply one_folds.
    + now apply greedy_folds.
    + now apply one_folds, greedy_folds.
    + now apply lazy_folds.
    + intros s st. apply (IH s {| opened := s; closed := closed st |}).
    + intros s st.
      pose proof (IH s {| opened := opened st;
                          closed := closed st
                                      ++ [{| first := opened st;
                                             second := s |}] |}) as H.
      unfold lower_state in H. cbn [opened closed] in H.
      rewrite map_app in H. exact H.
Qed.

Lemma regex_search_lower (re : basic_regex) (s : iterator) :
  icase re = true ->
  regex_search re (lower s) = option_map (map lower_sub) (regex_search re s).
Proof.
  intros Hic. induction s as [|c s IH].
  - cbn [lower map regex_search]. rewrite Hic.
    pose proof (exec_folds (pattern re) [] initial) as H.
    cbn [lower map] in H. change (lower_state initial) with initial in H.
    destruct (exec true (pattern re) [] initial) as [[g e]|];
      [|reflexivity].
    unfold lower_outcome in H. injection H as Hg He.
    cbn [option_map map]. unfold lower_sub at 1. cbn [first second].
    change (lower []) with (@nil ascii). now rewrite <- Hg, <- He.
  - cbn [lower map regex_search]. rewrite Hic.
    pose proof (exec_folds (pattern re) (c :: s) initial) as H.
    cbn [lower map] in H. change (lower_state initial) with initial in H.
    rewrite H.
    destruct (exec true (pattern re) (c :: s) initial) as [[g e]|];
      [reflexivity | exact IH].
Qed.

Lemma str_lower (m : sub_match) : str (lower_sub m) = lower (str m).
Proof.
  unfold str, lower_sub, lower. cbn [first second].
  now rewrite !length_map, firstn_map.
Qed.

Lemma at_lower (m : match_results) (i : nat) :
  at_ (map lower_sub m) i = lower_sub (at_ m i).
Proof.
  unfold at_. change unmatched with (lower_sub unmatched) at 1.
  apply map_nth.
Qed.

Lemma scan_lower (re : basic_regex) (fuel : nat) (s : iterator)
      (found : list text) :
  icase re = true ->
  scan fuel re (lower s) (map lower found)
  = option_map (map lower) (scan fuel re s found).
Proof.
  intros Hic. revert s found.
  induction fuel as [|fuel IH]; intros s found; [reflexivity|].
  cbn [scan]. rewrite regex_search_lower by exact Hic.
  destruct (regex_search re s) as [m|]; [|reflexivity].
  cbn [option_map]. rewrite <- IH. rewrite map_app. cbn [map].
  unfold suffix. rewrite !at_lower, str_lower. reflexivity.
Qed.

Unset Implicit Arguments.

(** X12: letter case matters nowhere in the body for what is found.
    Folding every capital letter of the body to lower case gives the same
    links and the same button labels, with their capital letters folded,
    and nothing else changes: the same number of entries, in the same
    order. *)
Theorem extraction_ignores_letter_case (html : text) :
  extract (lower html) = option_map lower_result (extract html).
Proof.
  unfold extract, scan_all. unfold lower at 1 3. rewrite !length_map.
  fold (lower html).
  pose proof (scan_lower linkRegex (S (List.length html)) html [] eq_refl)
    as Hl.
  pose proof (scan_lower buttonRegex (S (List.length html)) html [] eq_refl)
    as Hb.
  cbn [map] in Hl, Hb. rewrite Hl, Hb.
  destruct (scan (S (List.length html)) linkRegex html []) as [ls|];
    [|reflexivity].
  destruct (scan (S (List.length html)) buttonRegex html []) as [bs|];
    reflexivity.
Qed.

(** ** Where the entries stand in the body *)

Set Implicit Arguments.

Lemma starts_with_prefix_lower (p s : text) :
  starts_with true p s = true ->
  lower (firstn (List.length p) s) = lower p.
Proof.
  revert s. induction p as [|x p IH]; intros s H; [reflexivity|].
  destruct s as [|c s]; [discriminate|]. cbn [starts_with translate] in H.
  apply andb_true_iff in H as [Hc H]. apply Ascii.eqb_eq in Hc.
  cbn [List.length firstn lower map]. rewrite Hc. f_equal. now apply IH.
Qed.

Lemma exec_lit_inv_lower (p : text) (rest : list node) (s : iterator)
      (st : mstate) r :
  exec true (lit p ++ rest) s st = Some r ->
  exists x s',
    s = x ++ s' /\ lower x = lower p /\ exec true rest s' st = Some r.
Proof.
  rewrite exec_lit. destruct (starts_with true p s) eqn:E; [|discriminate].
  intros H. exists (firstn (List.length p) s), (skipn (List.length p) s).
  rewrite firstn_skipn. auto using starts_with_prefix_lower.
Qed.

Lemma lower_gt (g : text) : lower g = chars ">" -> g = chars ">".
Proof.
  destruct g as [|c [|d g]]; try discriminate.
  cbn [lower map chars list_ascii_of_string]. intros H. injection H as H.
  f_equal. destruct c as [[] [] [] [] [] [] [] []]; try discriminate H;
    reflexivity.
Qed.

(** A successful attempt of the link pattern, with what stands around
    the group. *)
Lemma link_attempt_quoted (s : iterator) (st : mstate) g e :
  exec true (pattern linkRegex) s st = Some (g, e) ->
  exists x h q1 v q2,
    s = x ++ h ++ q1 :: v ++ q2 :: e
    /\ g = closed st ++ [{| first := v ++ q2 :: e; second := q2 :: e |}]
    /\ lower h = chars "href="
    /\ is_quote q1 = true /\ is_quote q2 = true.
Proof.
  change (pattern linkRegex)
    with (lit "<a"
              ++ Term (Bracket true [">"%char]) Star
              :: lit "href="
              ++ [Term (Bracket false [dquote; squote]) Once;
                  GroupBegin;
                  Term (Bracket true [dquote; squote]) Plus;
                  GroupEnd;
                  Term (Bracket false [dquote; squote]) Once]).
  intros H.
  apply exec_lit_inv in H as (x1 & s1 & -> & _ & H). cbn [exec] in H.
  apply greedy_inv in H as (x2 & s2 & -> & _ & H).
  apply exec_lit_inv_lower in H as (h & s3 & -> & Hh & H). cbn [exec] in H.
  apply one_inv in H as (q1 & s4 & -> & Hq1 & H).
  apply one_inv in H as (c & s5 & -> & _ & H).
  apply greedy_inv in H as (x5 & s6 & -> & _ & H).
  apply one_inv in H as (q2 & e' & -> & Hq2 & H).
  cbn [closed opened] in H. injection H as <- <-.
  rewrite bracket_quote in Hq1, Hq2. cbn [xorb] in Hq1, Hq2.
  exists (x1 ++ x2), h, q1, (c :: x5), q2. repeat split; auto.
  now repeat (rewrite <- app_assoc; cbn [app]).
Qed.

(** A successful attempt of the button pattern, with what stands around
    the group. *)
Lemma button_attempt_enclosed (s : iterator) (st : mstate) g e :
  exec true (pattern buttonRegex) s st = Some (g, e) ->
  exists x v close,
    s = x ++ ">"%char :: v ++ close ++ e
    /\ g = closed st ++ [{| first := v ++ close ++ e; second := close ++ e |}]
    /\ lower close = chars "</button>".
Proof.
  change (pattern buttonRegex)
    with (lit "<button"
              ++ Term (Bracket true [">"%char]) Star
              :: lit ">"
              ++ [GroupBegin; Term Any LazyStar; GroupEnd]
              ++ lit "</button>" ++ []).
  intros H.
  apply exec_lit_inv in H as (x1 & s1 & -> & _ & H). cbn [exec] in H.
  apply greedy_inv in H as (x2 & s2 & -> & _ & H).
  apply exec_lit_inv_lower in H as (gt & s3 & -> & Hgt & H).
  cbn [app exec] in H.
  apply lazy_inv in H as (v & s4 & -> & _ & H & _).
  cbn [closed opened] in *.
  apply exec_lit_inv_lower in H as (close & e' & -> & Hclose & H).
  cbn [exec closed] in H. injection H as <- <-.
  apply lower_gt in Hgt. subst gt.
  exists (x1 ++ x2), v, close. repeat split; auto.
  now repeat (rewrite <- app_assoc; cbn [app]).
Qed.

Lemma scan_forall_within (html : text) (P : text -> Prop) (re : basic_regex) :
  cuts_piece re ->
  (forall a s m,
      html = a ++ s -> regex_search re s = Some m -> P (str (at_ m 1))) ->
  forall fuel s found r a,
    html = a ++ s ->
    scan fuel re s found = Some r -> Forall P found -> Forall P r.
Proof.
  intros Hre HP fuel. induction fuel as [|fuel IH]; intros s found r a Ha;
    [discriminate|].
  cbn [scan]. destruct (regex_search re s) as [m|] eqn:E.
  - intros H Hf. destruct (Hre s m E) as (a' & b & Es).
    apply (IH _ _ _ (a ++ a' ++ str (at_ m 1) ++ b)) in H; [exact H | |].
    + rewrite Ha, Es at 1. now repeat rewrite <- app_assoc.
    + apply Forall_app. split; [exact Hf|].
      constructor; [exact (HP a s m Ha E) | constructor].
  - intros H Hf. now injection H as <-.
Qed.

Unset Implicit Arguments.

(** X13: whatever the body, every extracted link stands in the body
    between two quote characters directly behind the text href= (in any
    letter case), and every extracted button label stands in the body
    directly behind a > and directly in front of a closing tag </button>
    (in any letter case): nothing is reported that is not there. *)
Theorem entries_stand_between_delimiters (html : text) :
  exists r,
    extract html = Some r
    /\ Forall (fun l =>
                 exists a h q1 q2 b,
                   html = a ++ h ++ q1 :: l ++ q2 :: b
                   /\ lower h = chars "href="
                   /\ is_quote q1 = true /\ is_quote q2 = true)
              (links r)
    /\ Forall (fun l =>
                 exists a close b,
                   html = a ++ ">"%char :: l ++ close ++ b
                   /\ lower close = chars "</button>")
              (buttons r).
Proof.
  destruct (extract_total html) as [r Hr]. exists r. split; [exact Hr|].
  apply extract_parts in Hr as [Hl Hb]. unfold scan_all in Hl, Hb. split.
  - refine (@scan_forall_within html _ linkRegex linkRegex_cuts_piece _
              _ _ _ _ [] eq_refl Hl (Forall_nil _)).
    intros a s m Ha H.
    apply regex_search_inv in H as (a' & t & g & e & -> & -> & H).
    cbn [icase linkRegex] in H.
    apply link_attempt_quoted in H
      as (x & h & q1 & v & q2 & -> & -> & Hh & Hq1 & Hq2).
    cbn [at_ nth initial closed app]. rewrite str_prefix.
    exists (a ++ a' ++ x), h, q1, q2, e. repeat split; auto.
    rewrite Ha. now repeat rewrite <- app_assoc.
  - refine (@scan_forall_within html _ buttonRegex buttonRegex_cuts_piece _
              _ _ _ _ [] eq_refl Hb (Forall_nil _)).
    intros a s m Ha H.
    apply regex_search_inv in H as (a' & t & g & e & -> & -> & H).
    cbn [icase buttonRegex] in H.
    apply button_attempt_enclosed in H as (x & v & close & -> & -> & Hclose).
    cbn [at_ nth initial closed app]. rewrite str_prefix.
    exists (a ++ a' ++ x), close, e. split; [|exact Hclose].
    rewrite Ha. now repeat rewrite <- app_assoc.
Qed.
